(** * The [imbalancer] load-balancing policy

    A shallow embedding of [src/core/load_balancing/imbalancer/imbalancer.cc]:
    the configuration value [ImbalancerConfig], the delegating policy
    [ImbalancerLb] with its four operations, and the configuration parser of
    [ImbalancerFactory].

    The registry, the child policies and the JSON library are collaborators
    that live outside the file.  The registry and the children are taken as
    parameters (an [Environment]); every call the engine makes on them is
    recorded in a trace, so that statements about creation, teardown and
    forwarding can be read off the trace. *)

From stdpp Require Import gmap strings list fin_maps.

Open Scope string_scope.
Open Scope list_scope.
Open Scope nat_scope.
Set Warnings "-register-all".

(** ** JSON values ([src/core/util/json/json.h])

    [Json::Object] is a [std::map<std::string, Json>], [Json::Array] a
    [std::vector<Json>]; numbers are kept as their text. *)

Inductive Json : Type :=
| JNull
| JBoolean (b : bool)
| JNumber (text : string)
| JString (s : string)
| JObject (o : gmap string Json)
| JArray (a : list Json).

(** [Json::FromObject({})]. *)
Definition Json_empty_object : Json := JObject ∅.

(** ** Status values ([absl::Status], [absl::StatusOr]) *)

Inductive StatusCode : Type :=
| kOk | kCancelled | kUnknown | kInvalidArgument | kDeadlineExceeded
| kNotFound | kAlreadyExists | kPermissionDenied | kResourceExhausted
| kFailedPrecondition | kAborted | kOutOfRange | kUnimplemented
| kInternal | kUnavailable | kDataLoss | kUnauthenticated.

Record Status : Type := mkStatus { code : StatusCode; message : string }.

Definition OkStatus : Status := mkStatus kOk "".
Definition InvalidArgumentError (msg : string) : Status :=
  mkStatus kInvalidArgument msg.

Definition ok (s : Status) : bool :=
  match code s with kOk => true | _ => false end.

(** A [StatusOr<T>] holds either a value or the status that explains why
    there is none. *)
Inductive StatusOr (T : Type) : Type :=
| Value (v : T)
| Failed (status : Status).
Arguments Value {T} v.
Arguments Failed {T} status.

(** ** Configuration values

    [LoadBalancingPolicy::Config] is the base class of every policy's parsed
    configuration.  [ImbalancerConfig] is the one this file defines (lines
    31-48); [PolicyConfig] stands for the parsed configuration of any other
    policy, such as the child's.  A [RefCountedPtr<Config>] may be null, hence
    the [option]. *)

Inductive Config : Type :=
| ImbalancerConfig (child_policy_name : string) (child_config : option Config)
| PolicyConfig (policy : string) (body : Json).

(** ** The configuration parser
    ([ImbalancerFactory::ParseLoadBalancingConfig], lines 124-148) *)

Section Parser.

(** [CoreConfiguration::Get().lb_policy_registry().ParseLoadBalancingConfig]:
    the registry's parser for a [loadBalancingConfig] list. *)
Variable registry_ParseLoadBalancingConfig : Json → StatusOr (option Config).

Definition ParseLoadBalancingConfig (json : Json) : StatusOr (option Config) :=
  let child_policy := "round_robin" in
  let child_config := Json_empty_object in
  let '(child_policy, child_config) :=
    match json with
    | JObject o =>
        (match o !! "childPolicy" with
         | Some (JString s) => s
         | _ => child_policy
         end,
         match o !! "childPolicyConfig" with
         | Some (JObject c) => JObject c
         | _ => child_config
         end)
    | _ => (child_policy, child_config)
    end in
  let lb_config := [JObject {[ child_policy := child_config ]}] in
  match registry_ParseLoadBalancingConfig (JArray lb_config) with
  | Failed status => Failed status
  | Value child => Value (Some (ImbalancerConfig child_policy child))
  end.

End Parser.

(** ** Values that only pass through

    The engine never looks inside the channel arguments, the address list or
    the work serializer; it hands them on.  Their types are parameters. *)

Class TransportTypes : Type := {
  ChannelArgs : Type;
  Addresses : Type;
  WorkSerializer : Type;
}.

Section Engine.

Context `{TransportTypes}.

(** [LoadBalancingPolicy::UpdateArgs]. *)
Record UpdateArgs : Type := mkUpdateArgs {
  addresses : Addresses;
  config : option Config;
  resolution_note : string;
  args : ChannelArgs;
}.

(** The [Helper] of lines 86-92: a
    [ParentOwningDelegatingChannelControlHelper] whose parent is the engine
    that made it.  The model has one engine, so the helper carries no data. *)
Inductive ChannelControlHelper : Type :=
| Helper.

(** [LoadBalancingPolicy::Args]; its [args] field is [channel_args] here,
    since [args] already names the field of [UpdateArgs]. *)
Record Args : Type := mkArgs {
  work_serializer : WorkSerializer;
  channel_args : ChannelArgs;
  channel_control_helper : ChannelControlHelper;
}.

(** A child policy instance, as the object the registry made: instances are
    numbered in the order of their creation. *)
Definition ChildPolicy : Type := nat.

(** The calls the engine makes on its collaborators: on the registry to
    have a child made (with what the registry returned), and on a child to
    orphan it, to update it (with the status the child returned), to take
    it out of idle and to reset its backoff. *)
Inductive Event : Type :=
| RegistryCreate (name : string) (lb_args : Args) (result : option ChildPolicy)
| ChildOrphan (child : ChildPolicy)
| ChildUpdate (child : ChildPolicy) (child_args : UpdateArgs) (result : Status)
| ChildExitIdle (child : ChildPolicy)
| ChildResetBackoff (child : ChildPolicy).

(** The collaborators: whether the registry's [CreateLoadBalancingPolicy]
    returns an instance for a name, and the status a child's [UpdateLocked]
    returns.  Both may depend on everything that happened before. *)
Record Environment : Type := mkEnvironment {
  registry_creates : list Event → string → Args → bool;
  child_UpdateLocked : list Event → ChildPolicy → UpdateArgs → Status;
}.

(** The members of [ImbalancerLb] (lines 110-112) and, from its base class,
    the work serializer it was constructed with. *)
Record ImbalancerLb : Type := mkImbalancerLb {
  work_serializer_ : WorkSerializer;
  shutting_down_ : bool;
  child_policy_name_ : string;
  child_policy_ : option ChildPolicy;
}.

(** The engine together with the record of its calls and the number of
    child instances made so far. *)
Record State : Type := mkState {
  this : ImbalancerLb;
  trace : list Event;
  instances : nat;
}.

(** A computation on the state.  [None] is undefined behaviour: a cast to a
    class the object does not have, or a call through a null pointer. *)
Definition M (A : Type) : Type := State → option (A * State).

Definition ret {A} (a : A) : M A := λ s, Some (a, s).
Definition undefined {A} : M A := λ _, None.
Definition bind {A B} (m : M A) (k : A → M B) : M B :=
  λ s, match m s with
       | Some (a, s') => k a s'
       | None => None
       end.

Notation "x <- m ;; k" := (bind m (λ x, k))
  (at level 20, m at level 99, k at level 200, only parsing).
Notation "m ;;; k" := (bind m (λ _, k))
  (at level 100, k at level 200, only parsing, right associativity).

Definition get {A} (field : ImbalancerLb → A) : M A :=
  λ s, Some (field (this s), s).
Definition modify (f : ImbalancerLb → ImbalancerLb) : M unit :=
  λ s, Some (tt, mkState (f (this s)) (trace s) (instances s)).
Definition emit (e : Event) : M unit :=
  λ s, Some (tt, mkState (this s) (trace s ++ [e]) (instances s)).
Definition history : M (list Event) := λ s, Some (trace s, s).
Definition fresh : M ChildPolicy :=
  λ s, Some (instances s, mkState (this s) (trace s) (S (instances s))).

Definition set_shutting_down_ (b : bool) (lb : ImbalancerLb) : ImbalancerLb :=
  mkImbalancerLb (work_serializer_ lb) b (child_policy_name_ lb) (child_policy_ lb).
Definition set_child_policy_name_ (n : string) (lb : ImbalancerLb) : ImbalancerLb :=
  mkImbalancerLb (work_serializer_ lb) (shutting_down_ lb) n (child_policy_ lb).
Definition set_child_policy_ (c : option ChildPolicy) (lb : ImbalancerLb) : ImbalancerLb :=
  mkImbalancerLb (work_serializer_ lb) (shutting_down_ lb) (child_policy_name_ lb) c.

(** [child_args.config = ...] on a copy of the arguments (line 73). *)
Definition set_config (c : option Config) (a : UpdateArgs) : UpdateArgs :=
  mkUpdateArgs (addresses a) c (resolution_note a) (args a).

Variable env : Environment.

(** The registry's [CreateLoadBalancingPolicy]: a new instance, or null. *)
Definition CreateLoadBalancingPolicy (name : string) (lb_args : Args)
  : M (option ChildPolicy) :=
  past <- history;;
  if registry_creates env past name lb_args then
    child <- fresh;;
    emit (RegistryCreate name lb_args (Some child));;;
    ret (Some child)
  else
    emit (RegistryCreate name lb_args None);;;
    ret None.

(** [OrphanablePtr::reset] and move assignment: the pointer takes the new
    value and the object it held before, if any, is orphaned. *)
Definition reset_child_policy_ (new : option ChildPolicy) : M unit :=
  old <- get child_policy_;;
  modify (set_child_policy_ new);;;
  match old with
  | Some child => emit (ChildOrphan child)
  | None => ret tt
  end.

(** [child_policy_ == nullptr]. *)
Definition is_null (p : option ChildPolicy) : bool :=
  match p with
  | Some _ => false
  | None => true
  end.

(** A call through [child_policy_->]. *)
Definition deref (p : option ChildPolicy) : M ChildPolicy :=
  match p with
  | Some child => ret child
  | None => undefined
  end.

(** Lines 94-103. *)
Definition CreateChildPolicy (name : string) (channel : ChannelArgs)
  : M (option ChildPolicy) :=
  ws <- get work_serializer_;;
  let lb_args := mkArgs ws channel Helper in
  CreateLoadBalancingPolicy name lb_args.

(** Lines 71-74: the update goes to the child with the child's own
    configuration in place of the engine's. *)
Definition forward_update (update_args : UpdateArgs)
    (child_config : option Config) : M Status :=
  let child_args := set_config child_config update_args in
  p <- get child_policy_;;
  child <- deref p;;
  past <- history;;
  let result := child_UpdateLocked env past child child_args in
  emit (ChildUpdate child child_args result);;;
  ret result.

(** Lines 56-75.  The right-hand side of the assignment on line 66 is
    evaluated first, so the registry is asked for the new child while the
    old one is still held; storing the result then orphans the old one. *)
Definition UpdateLocked (update_args : UpdateArgs) : M Status :=
  shutting_down <- get shutting_down_;;
  if shutting_down then ret OkStatus else
  match config update_args with
  | None => ret (InvalidArgumentError "imbalancer: missing config")
  | Some (PolicyConfig _ _) => undefined
  | Some (ImbalancerConfig child_policy_name child_config) =>
      p <- get child_policy_;;
      current <- get child_policy_name_;;
      if is_null p || negb (String.eqb current child_policy_name) then
        modify (set_child_policy_name_ child_policy_name);;;
        name <- get child_policy_name_;;
        new <- CreateChildPolicy name (args update_args);;
        reset_child_policy_ new;;;
        p <- get child_policy_;;
        if is_null p then
          ret (InvalidArgumentError "imbalancer: failed to create child policy")
        else forward_update update_args child_config
      else forward_update update_args child_config
  end.

(** Lines 77-79. *)
Definition ExitIdleLocked : M unit :=
  p <- get child_policy_;;
  match p with
  | Some child => emit (ChildExitIdle child)
  | None => ret tt
  end.

(** Lines 81-83. *)
Definition ResetBackoffLocked : M unit :=
  p <- get child_policy_;;
  match p with
  | Some child => emit (ChildResetBackoff child)
  | None => ret tt
  end.

(** Lines 105-108. *)
Definition ShutdownLocked : M unit :=
  modify (set_shutting_down_ true);;;
  reset_child_policy_ None.

(** The constructor (line 52): nothing is shutting down, no child is held,
    the name is the empty string. *)
Definition ImbalancerLb_new (lb_args : Args) : ImbalancerLb :=
  mkImbalancerLb (work_serializer lb_args) false "" None.

Definition initial (lb_args : Args) : State :=
  mkState (ImbalancerLb_new lb_args) [] 0.

(** The calls the owner of the policy can make on it. *)
Inductive Call : Type :=
| CallUpdateLocked (update_args : UpdateArgs)
| CallExitIdleLocked
| CallResetBackoffLocked
| CallShutdownLocked.

Definition call (c : Call) : M (option Status) :=
  match c with
  | CallUpdateLocked update_args =>
      status <- UpdateLocked update_args;; ret (Some status)
  | CallExitIdleLocked => ExitIdleLocked;;; ret None
  | CallResetBackoffLocked => ResetBackoffLocked;;; ret None
  | CallShutdownLocked => ShutdownLocked;;; ret None
  end.

Fixpoint calls (cs : list Call) : M (list (option Status)) :=
  match cs with
  | [] => ret []
  | c :: cs' => r <- call c;; rs <- calls cs';; ret (r :: rs)
  end.

(** The states the engine can be in: those some sequence of calls leads to
    from a newly constructed engine. *)
Inductive reachable : State → Prop :=
| reachable_initial lb_args : reachable (initial lb_args)
| reachable_call s c r s' :
    reachable s → call c s = Some (r, s') → reachable s'.

End Engine.

(** ** Reading a trace *)

Section Traces.

Context `{TransportTypes}.

(** The child instances that are alive after the events of a trace: made
    by the registry and not yet orphaned. *)
Definition live_step (alive : list ChildPolicy) (e : Event) : list ChildPolicy :=
  match e with
  | RegistryCreate _ _ (Some child) => alive ++ [child]
  | ChildOrphan child => filter (λ c, c ≠ child) alive
  | _ => alive
  end.

Definition live (t : list Event) : list ChildPolicy := foldl live_step [] t.

(** The events that pass a call of the engine's owner on to a child, and
    the events that ask the registry for a child. *)
Definition is_forward (e : Event) : bool :=
  match e with
  | ChildUpdate _ _ _ | ChildExitIdle _ | ChildResetBackoff _ => true
  | _ => false
  end.

Definition is_creation (e : Event) : bool :=
  match e with
  | RegistryCreate _ _ _ => true
  | _ => false
  end.

(** What a pointer holds, as a list. *)
Definition held (p : option ChildPolicy) : list ChildPolicy :=
  match p with
  | Some child => [child]
  | None => []
  end.

(** Whether line 63 asks for a new child. *)
Definition wants_new_child (s : State) (n : string) : Prop :=
  child_policy_ (this s) = None ∨ child_policy_name_ (this s) ≠ n.

(** No two children alive at any moment of a trace. *)
Definition never_two_alive (t : list Event) : Prop :=
  ∀ n, length (live (take n t)) ≤ 1.

(** What a call returns once the engine has shut down. *)
Definition swallowed (c : Call) : option Status :=
  match c with
  | CallUpdateLocked _ => Some OkStatus
  | _ => None
  end.

(** What holds of the engine between calls. *)
Record consistent (env : Environment) (s : State) : Prop := mkConsistent {
  held_is_live : live (trace s) = held (child_policy_ (this s));
  held_is_made : ∀ p, child_policy_ (this s) = Some p → p < instances s;
  shut_holds_none :
    shutting_down_ (this s) = true → child_policy_ (this s) = None;
  held_under_name : ∀ p,
    child_policy_ (this s) = Some p →
    ∃ lb_args,
      RegistryCreate (child_policy_name_ (this s)) lb_args (Some p) ∈ trace s;
  made_by_registry : ∀ n lb_args p,
    RegistryCreate n lb_args (Some p) ∈ trace s →
    ∃ past, registry_creates env past n lb_args = true;
}.

End Traces.

(** ** A small world to run the engine in

    Channel arguments, addresses and serializers are names; the registry
    knows two policies. *)

Section Examples.

#[local] Instance example_types : TransportTypes :=
  {| ChannelArgs := string; Addresses := list string; WorkSerializer := string |}.

Definition example_lb_args : @Args example_types :=
  mkArgs "serializer" "channel" Helper.

Definition example_registry : @Environment example_types :=
  mkEnvironment
    (λ _ name _, bool_decide (name = "round_robin") || bool_decide (name = "pick_first"))
    (λ _ _ _, OkStatus).

Definition empty_registry : @Environment example_types :=
  mkEnvironment (λ _ _ _, false) (λ _ _ _, OkStatus).

Definition example_update (c : option Config) : @UpdateArgs example_types :=
  mkUpdateArgs ["10.0.0.1:443"] c "" "channel".

Definition update_round_robin : UpdateArgs :=
  example_update (Some (ImbalancerConfig "round_robin" None)).
Definition update_pick_first : UpdateArgs :=
  example_update (Some (ImbalancerConfig "pick_first" None)).
Definition update_unknown : UpdateArgs :=
  example_update (Some (ImbalancerConfig "does_not_exist" None)).
Definition update_null : UpdateArgs := example_update None.

(** After a first update that names round_robin, where the registry knows
    it and where it knows nothing; and after a shutdown. *)
Definition example_running : State :=
  mkState (mkImbalancerLb "serializer" false "round_robin" (Some 0))
          [RegistryCreate "round_robin" example_lb_args (Some 0);
           ChildUpdate 0 (example_update None) OkStatus]
          1.

Definition example_failed : State :=
  mkState (mkImbalancerLb "serializer" false "round_robin" None)
          [RegistryCreate "round_robin" example_lb_args None]
          0.

Definition example_shut : State :=
  mkState (mkImbalancerLb "serializer" true "" None) [] 0.

(** An input to the parser with both fields of the wrong type, and a
    registry parser that accepts everything. *)
Definition example_json : gmap string Json :=
  {[ "childPolicy" := JNumber "123"; "childPolicyConfig" := JString "x" ]}.

Definition example_registry_parser (j : Json) : StatusOr (option Config) :=
  Value (Some (PolicyConfig "child" j)).

End Examples.

(** ** More ways to read a trace *)

Section TraceChecks.

Context `{TransportTypes}.

(** The child an event is a call on, if it is one. *)
Definition child_of (e : Event) : option ChildPolicy :=
  match e with
  | RegistryCreate _ _ _ => None
  | ChildOrphan p | ChildUpdate p _ _ | ChildExitIdle p
  | ChildResetBackoff p => Some p
  end.

(** Every call on a child finds that child alive, when the events of [t]
    follow a moment at which the children in [alive] are. *)
Fixpoint checked (alive : list ChildPolicy) (t : list Event) : Prop :=
  match t with
  | [] => True
  | e :: t' =>
      (∀ p, child_of e = Some p → p ∈ alive) ∧ checked (live_step alive e) t'
  end.

Definition is_shutdown (c : Call) : bool :=
  match c with
  | CallShutdownLocked => true
  | _ => false
  end.

End TraceChecks.

Section MoreExamples.

#[local] Existing Instance example_types.

(** A registry that has nothing the first time it is asked and everything
    afterwards. *)
Definition late_registry : @Environment example_types :=
  mkEnvironment
    (λ past _ _, match past with [] => false | _ => true end)
    (λ _ _ _, OkStatus).

(** After round_robin has been replaced by pick_first. *)
Definition example_replaced : State :=
  mkState (mkImbalancerLb "serializer" false "pick_first" (Some 1))
          [RegistryCreate "round_robin" example_lb_args (Some 0);
           ChildUpdate 0 (example_update None) OkStatus;
           RegistryCreate "pick_first" example_lb_args (Some 1);
           ChildOrphan 0;
           ChildUpdate 1 (example_update None) OkStatus]
          2.

(** A config of another policy's class. *)
Definition update_other_kind : UpdateArgs :=
  example_update (Some (PolicyConfig "round_robin" JNull)).

(** Updates whose configs carry a child configuration. *)
Definition round_robin_config : option Config :=
  Some (PolicyConfig "round_robin" (JObject ∅)).
Definition pick_first_config : option Config :=
  Some (PolicyConfig "pick_first" (JObject {[ "shuffle" := JBoolean true ]})).
Definition update_round_robin_configured : UpdateArgs :=
  example_update (Some (ImbalancerConfig "round_robin" round_robin_config)).
Definition update_pick_first_configured : UpdateArgs :=
  example_update (Some (ImbalancerConfig "pick_first" pick_first_config)).

(** An input to the parser with both fields well typed and a third field. *)
Definition typed_json : gmap string Json :=
  {[ "childPolicy" := JString "pick_first";
     "childPolicyConfig" := JObject {[ "shuffle" := JBoolean true ]};
     "comment" := JString "ignored" ]}.

End MoreExamples.

(** * Properties *)

Section Properties.

Context `{TransportTypes}.
Variable env : Environment.

Implicit Types (s : State) (a : UpdateArgs) (p : ChildPolicy).

(** ** The five ways through [UpdateLocked] *)

Ltac run :=
  unfold UpdateLocked, forward_update, CreateChildPolicy,
    CreateLoadBalancingPolicy, reset_child_policy_, ExitIdleLocked,
    ResetBackoffLocked, ShutdownLocked, deref, bind, get, modify, emit,
    history, fresh, ret, undefined; simpl.

Lemma UpdateLocked_shutting_down s a :
  shutting_down_ (this s) = true →
  UpdateLocked env a s = Some (OkStatus, s).
Proof. intros Hsd. run. by rewrite Hsd. Qed.

Lemma UpdateLocked_null s a :
  shutting_down_ (this s) = false → config a = None →
  UpdateLocked env a s
  = Some (InvalidArgumentError "imbalancer: missing config", s).
Proof. intros Hsd Hc. run. by rewrite Hsd, Hc. Qed.

Lemma UpdateLocked_other_kind s a policy body :
  shutting_down_ (this s) = false →
  config a = Some (PolicyConfig policy body) →
  UpdateLocked env a s = None.
Proof. intros Hsd Hc. run. by rewrite Hsd, Hc. Qed.

Lemma UpdateLocked_keep s a n cc p :
  shutting_down_ (this s) = false →
  config a = Some (ImbalancerConfig n cc) →
  child_policy_ (this s) = Some p →
  child_policy_name_ (this s) = n →
  let r := child_UpdateLocked env (trace s) p (set_config cc a) in
  UpdateLocked env a s
  = Some (r, mkState (this s)
                     (trace s ++ [ChildUpdate p (set_config cc a) r])
                     (instances s)).
Proof.
  destruct s as [[ws sd nm ch] t k]; simpl. intros -> Hc -> ->.
  run. rewrite Hc. simpl. by rewrite String.eqb_refl.
Qed.

Lemma wants_new_child_test s n :
  wants_new_child s n →
  is_null (child_policy_ (this s))
  || negb (String.eqb (child_policy_name_ (this s)) n) = true.
Proof.
  intros [Hp | Hn].
  - by rewrite Hp.
  - apply String.eqb_neq in Hn. rewrite Hn. apply orb_true_r.
Qed.

Lemma UpdateLocked_created s a n cc :
  shutting_down_ (this s) = false →
  config a = Some (ImbalancerConfig n cc) →
  wants_new_child s n →
  let lb_args := mkArgs (work_serializer_ (this s)) (args a) Helper in
  registry_creates env (trace s) n lb_args = true →
  let q := instances s in
  let t :=
    trace s ++ [RegistryCreate n lb_args (Some q)]
            ++ (ChildOrphan <$> held (child_policy_ (this s))) in
  let r := child_UpdateLocked env t q (set_config cc a) in
  UpdateLocked env a s
  = Some (r, mkState (mkImbalancerLb (work_serializer_ (this s)) false n (Some q))
                     (t ++ [ChildUpdate q (set_config cc a) r])
                     (S q)).
Proof.
  intros Hsd Hc Hw. apply wants_new_child_test in Hw. revert Hsd Hw.
  destruct s as [[ws sd nm ch] t k]; simpl. intros -> Hw Hreg.
  destruct ch, (String.eqb nm n) eqn:E; try discriminate Hw;
    run; rewrite Hc; simpl; rewrite ?E; simpl; rewrite Hreg; simpl;
    by rewrite <- ?app_assoc.
Qed.

Lemma UpdateLocked_not_created s a n cc :
  shutting_down_ (this s) = false →
  config a = Some (ImbalancerConfig n cc) →
  wants_new_child s n →
  let lb_args := mkArgs (work_serializer_ (this s)) (args a) Helper in
  registry_creates env (trace s) n lb_args = false →
  UpdateLocked env a s
  = Some (InvalidArgumentError "imbalancer: failed to create child policy",
          mkState (mkImbalancerLb (work_serializer_ (this s)) false n None)
                  (trace s ++ [RegistryCreate n lb_args None]
                           ++ (ChildOrphan <$> held (child_policy_ (this s))))
                  (instances s)).
Proof.
  intros Hsd Hc Hw. apply wants_new_child_test in Hw. revert Hsd Hw.
  destruct s as [[ws sd nm ch] t k]; simpl. intros -> Hw Hreg.
  destruct ch, (String.eqb nm n) eqn:E; try discriminate Hw;
    run; rewrite Hc; simpl; rewrite ?E; simpl; rewrite Hreg; simpl;
    by rewrite <- ?app_assoc.
Qed.

(** ** The other three operations *)

Lemma ExitIdleLocked_eq s :
  ExitIdleLocked s
  = Some (tt, mkState (this s)
                      (trace s ++ (ChildExitIdle <$> held (child_policy_ (this s))))
                      (instances s)).
Proof.
  destruct s as [[ws sd nm [p|]] t k]; run; by rewrite ?app_nil_r.
Qed.

Lemma ResetBackoffLocked_eq s :
  ResetBackoffLocked s
  = Some (tt, mkState (this s)
                      (trace s ++ (ChildResetBackoff <$> held (child_policy_ (this s))))
                      (instances s)).
Proof.
  destruct s as [[ws sd nm [p|]] t k]; run; by rewrite ?app_nil_r.
Qed.

Lemma ShutdownLocked_eq s :
  ShutdownLocked s
  = Some (tt, mkState (mkImbalancerLb (work_serializer_ (this s)) true
                                      (child_policy_name_ (this s)) None)
                      (trace s ++ (ChildOrphan <$> held (child_policy_ (this s))))
                      (instances s)).
Proof.
  destruct s as [[ws sd nm [p|]] t k]; run; by rewrite ?app_nil_r.
Qed.

(** ** Liveness along a trace *)

Lemma live_app (t es : list Event) :
  live (t ++ es) = foldl live_step (live t) es.
Proof. apply foldl_app. Qed.

Lemma live_replace (t : list Event) n lb_args p q :
  live t = [p] → p ≠ q →
  live (t ++ [RegistryCreate n lb_args (Some q)] ++ [ChildOrphan p]) = [q].
Proof.
  intros Ht Hne. rewrite live_app, Ht. simpl.
  rewrite filter_cons_False, filter_cons_True by congruence. done.
Qed.

Lemma live_orphan (t : list Event) p :
  live t = [p] → live (t ++ [ChildOrphan p]) = [].
Proof.
  intros Ht. rewrite live_app, Ht. simpl.
  by rewrite filter_cons_False by congruence.
Qed.

(** ** Consistency of the reachable states *)

Ltac members H :=
  repeat (rewrite ?elem_of_app, ?elem_of_cons, ?elem_of_nil in H);
  repeat match type of H with
         | _ ∨ _ => destruct H as [H | H]
         | False => destruct H
         end;
  try discriminate H.

Lemma consistent_initial lb_args : consistent env (initial lb_args).
Proof.
  split; simpl; try done.
  intros n a p Hin. by apply elem_of_nil in Hin.
Qed.

(** Events that neither make nor orphan a child leave everything as it is. *)
Lemma consistent_quiet s (es : list Event) :
  consistent env s →
  Forall (λ e, is_creation e = false ∧ ∀ p, e ≠ ChildOrphan p) es →
  consistent env (mkState (this s) (trace s ++ es) (instances s)).
Proof.
  intros [Hlive Hmade Hshut Hname Hreg] Hes.
  assert (Hfold : ∀ l, foldl live_step l es = l).
  { induction Hes as [| e es [He1 He2] _ IH]; intros l; [done |].
    simpl. rewrite <- (IH l) at 2. f_equal.
    destruct e as [? ? [?|] | q | | |]; try done. by destruct (He2 q). }
  split; simpl; try done.
  - by rewrite live_app, Hfold.
  - intros p Hp. destruct (Hname p Hp) as [lb_args Hin].
    exists lb_args. apply elem_of_app. by left.
  - intros n lb_args p Hin. apply elem_of_app in Hin as [Hin | Hin].
    + by eapply Hreg.
    + rewrite Forall_forall in Hes. by destruct (Hes _ Hin) as [? _].
Qed.

Lemma consistent_created s a n :
  consistent env s →
  let lb_args := mkArgs (work_serializer_ (this s)) (args a) Helper in
  registry_creates env (trace s) n lb_args = true →
  ∀ es, Forall (λ e, is_creation e = false ∧ ∀ p, e ≠ ChildOrphan p) es →
  consistent env
    (mkState (mkImbalancerLb (work_serializer_ (this s)) false n
                             (Some (instances s)))
             ((trace s ++ [RegistryCreate n lb_args (Some (instances s))]
                       ++ (ChildOrphan <$> held (child_policy_ (this s)))) ++ es)
             (S (instances s))).
Proof.
  intros [Hlive Hmade Hshut Hname Hreg] lb_args Hc es Hes.
  apply (consistent_quiet (mkState _ _ _)); [| done].
  split; simpl; try done.
  - destruct (child_policy_ (this s)) as [p|] eqn:Hp; simpl in *.
    + apply live_replace; [done |]. specialize (Hmade p eq_refl). lia.
    + by rewrite live_app, Hlive.
  - intros p [= <-]. lia.
  - intros p [= <-]. exists lb_args. rewrite elem_of_app, elem_of_cons. auto.
  - intros n' lb_args' p Hin.
    destruct (child_policy_ (this s)); simpl in Hin; members Hin;
      try (by eapply Hreg).
    all: injection Hin as -> -> _; by exists (trace s).
Qed.

Lemma consistent_not_created s n lb_args :
  consistent env s →
  consistent env
    (mkState (mkImbalancerLb (work_serializer_ (this s)) false n None)
             (trace s ++ [RegistryCreate n lb_args None]
                      ++ (ChildOrphan <$> held (child_policy_ (this s))))
             (instances s)).
Proof.
  intros [Hlive Hmade Hshut Hname Hreg].
  split; simpl; try done.
  - destruct (child_policy_ (this s)) as [p|] eqn:Hp; simpl in *.
    + rewrite live_app, Hlive. simpl.
      by rewrite filter_cons_False by congruence.
    + by rewrite live_app, Hlive.
  - intros n' lb_args' p Hin.
    destruct (child_policy_ (this s)); simpl in Hin; members Hin;
      by eapply Hreg.
Qed.

Lemma consistent_shutdown s :
  consistent env s →
  consistent env
    (mkState (mkImbalancerLb (work_serializer_ (this s)) true
                             (child_policy_name_ (this s)) None)
             (trace s ++ (ChildOrphan <$> held (child_policy_ (this s))))
             (instances s)).
Proof.
  intros [Hlive Hmade Hshut Hname Hreg].
  split; simpl; try done.
  - destruct (child_policy_ (this s)) as [p|] eqn:Hp; simpl in *.
    + by apply live_orphan.
    + by rewrite app_nil_r.
  - intros n' lb_args' p Hin.
    destruct (child_policy_ (this s)); simpl in Hin; members Hin;
      by eapply Hreg.
Qed.

Lemma wants_new_child_dec s n :
  {p | child_policy_ (this s) = Some p ∧ child_policy_name_ (this s) = n}
  + {wants_new_child s n}.
Proof.
  unfold wants_new_child.
  destruct (child_policy_ (this s)) as [p|]; [| by right; left].
  destruct (decide (child_policy_name_ (this s) = n)); [| by right; right].
  left. by exists p.
Qed.

Lemma UpdateLocked_consistent s a r s' :
  consistent env s → UpdateLocked env a s = Some (r, s') → consistent env s'.
Proof.
  intros Hs.
  destruct (shutting_down_ (this s)) eqn:Hsd.
  { rewrite UpdateLocked_shutting_down by done. by intros [= <- <-]. }
  destruct (config a) as [[n cc | policy body] |] eqn:Hc.
  - destruct (wants_new_child_dec s n) as [(p & Hp & Hn) | Hw].
    + rewrite (UpdateLocked_keep s a n cc p) by done. intros [= <- <-].
      apply consistent_quiet; [done |].
      apply Forall_singleton. by split.
    + destruct (registry_creates env (trace s) n
                  (mkArgs (work_serializer_ (this s)) (args a) Helper)) eqn:Hreg.
      * rewrite (UpdateLocked_created s a n cc) by done. intros [= <- <-].
        apply (consistent_created s a n); [done | done |].
        apply Forall_singleton. by split.
      * rewrite (UpdateLocked_not_created s a n cc) by done.
        intros [= <- <-]. by apply consistent_not_created.
  - by rewrite (UpdateLocked_other_kind s a policy body).
  - rewrite UpdateLocked_null by done. by intros [= <- <-].
Qed.

Lemma call_consistent s c r s' :
  consistent env s → call env c s = Some (r, s') → consistent env s'.
Proof.
  intros Hs. destruct c as [a | | |]; unfold call, bind, ret.
  - destruct (UpdateLocked env a s) as [[r' s'']|] eqn:Hu; [| done].
    intros [= <- <-]. by eapply UpdateLocked_consistent.
  - rewrite ExitIdleLocked_eq. intros [= <- <-].
    apply consistent_quiet; [done |].
    destruct (child_policy_ (this s)); simpl; [| done].
    apply Forall_singleton. by split.
  - rewrite ResetBackoffLocked_eq. intros [= <- <-].
    apply consistent_quiet; [done |].
    destruct (child_policy_ (this s)); simpl; [| done].
    apply Forall_singleton. by split.
  - rewrite ShutdownLocked_eq. intros [= <- <-].
    by apply consistent_shutdown.
Qed.

Lemma reachable_consistent s : reachable env s → consistent env s.
Proof.
  induction 1 as [lb_args | s c r s' _ IH Hcall].
  - apply consistent_initial.
  - by eapply call_consistent.
Qed.

Lemma calls_after_shutdown s cs :
  shutting_down_ (this s) = true → child_policy_ (this s) = None →
  calls env cs s = Some (swallowed <$> cs, s).
Proof.
  intros Hsd Hp. induction cs as [| c cs IH]; [done |].
  assert (Hc : call env c s = Some (swallowed c, s)).
  { destruct c as [a | | |]; unfold call, bind, ret; simpl.
    - by rewrite UpdateLocked_shutting_down.
    - rewrite ExitIdleLocked_eq, Hp. simpl. rewrite app_nil_r. by destruct s.
    - rewrite ResetBackoffLocked_eq, Hp. simpl. rewrite app_nil_r.
      by destruct s.
    - rewrite ShutdownLocked_eq, Hp. simpl. rewrite app_nil_r.
      destruct s as [[ws sd nm ch] t k]. simpl in *. by subst. }
  simpl. unfold bind at 1. rewrite Hc. unfold bind at 1. by rewrite IH.
Qed.

Lemma reachable_calls s cs rs s' :
  reachable env s → calls env cs s = Some (rs, s') → reachable env s'.
Proof.
  revert s rs. induction cs as [| c cs IH]; intros s rs Hs; simpl.
  - by intros [= <- <-].
  - unfold bind, ret.
    destruct (call env c s) as [[r s1]|] eqn:Hc; [| done].
    destruct (calls env cs s1) as [[rs' s2]|] eqn:Hcs; [| done].
    intros [= <- <-]. eapply IH; [| exact Hcs]. by eapply reachable_call.
Qed.

(** ** The claims about the engine *)

(** C1 (as the code has it).  Between calls at most one child is alive,
    the one the engine holds.  When an update names a child B while a child
    A with another name is held, the registry is asked for the B-child
    first and the A-child is orphaned right after, before anything is
    forwarded: for that one step both are alive. *)
Theorem replacement_creates_then_orphans s :
  reachable env s →
  live (trace s) = held (child_policy_ (this s)) ∧
  length (live (trace s)) ≤ 1 ∧
  ∀ a B cc old,
    child_policy_ (this s) = Some old →
    child_policy_name_ (this s) ≠ B →
    config a = Some (ImbalancerConfig B cc) →
    let lb_args := mkArgs (work_serializer_ (this s)) (args a) Helper in
    ∃ r s' made rest,
      UpdateLocked env a s = Some (r, s') ∧
      trace s' = trace s ++ RegistryCreate B lb_args made :: ChildOrphan old :: rest ∧
      live (trace s ++ [RegistryCreate B lb_args made]) = old :: held made ∧
      live (trace s ++ [RegistryCreate B lb_args made; ChildOrphan old]) = held made ∧
      Forall (λ e, is_creation e = false ∧ ∀ p, e ≠ ChildOrphan p) rest ∧
      child_policy_ (this s') = made ∧
      live (trace s') = held made.
Proof.
  intros Hreach. pose proof (reachable_consistent s Hreach) as Hs.
  pose proof (held_is_live _ _ Hs) as Hlive.
  split; [done |]. split.
  { rewrite Hlive. destruct (child_policy_ (this s)); simpl; lia. }
  intros a B cc old Hold Hname Hc lb_args.
  assert (Hsd : shutting_down_ (this s) = false).
  { destruct (shutting_down_ (this s)) eqn:E; [| done].
    pose proof (shut_holds_none _ _ Hs E). congruence. }
  assert (Hw : wants_new_child s B) by by right.
  assert (Hfresh : old ≠ instances s).
  { pose proof (held_is_made _ _ Hs old Hold). lia. }
  rewrite Hold in Hlive. simpl in Hlive.
  destruct (registry_creates env (trace s) B lb_args) eqn:Hreg.
  - pose proof (UpdateLocked_created s a B cc Hsd Hc Hw Hreg) as Hu.
    simpl in Hu. rewrite Hold in Hu. simpl in Hu.
    eexists _, _, (Some (instances s)), [_].
    split; [exact Hu |]. simpl.
    split; [by rewrite <- !app_assoc |].
    split; [by rewrite live_app, Hlive |].
    split; [by apply (live_replace _ B lb_args) |].
    split; [apply Forall_singleton; by split |].
    split; [done |].
    rewrite live_app. simpl. by apply (live_replace _ B lb_args).
  - pose proof (UpdateLocked_not_created s a B cc Hsd Hc Hw Hreg) as Hu.
    simpl in Hu. rewrite Hold in Hu. simpl in Hu.
    assert (Hgone :
      live (trace s ++ [RegistryCreate B lb_args None; ChildOrphan old]) = []).
    { rewrite live_app, Hlive. simpl.
      by rewrite filter_cons_False by congruence. }
    eexists _, _, None, [].
    split; [exact Hu |]. simpl.
    split; [done |].
    split; [by rewrite live_app, Hlive |].
    by repeat split.
Qed.

(** C2 (as the code has it).  Whenever the engine holds a child, the
    stored name is the name under which the registry made that child, so it
    is not empty unless the registry makes policies under the empty name.
    Nothing clears the name, so the converse is not promised. *)
Theorem held_child_has_stored_name s p :
  reachable env s →
  child_policy_ (this s) = Some p →
  (∃ lb_args,
     RegistryCreate (child_policy_name_ (this s)) lb_args (Some p) ∈ trace s) ∧
  ((∀ past lb_args, registry_creates env past "" lb_args = false) →
   child_policy_name_ (this s) ≠ "").
Proof.
  intros Hreach Hp. pose proof (reachable_consistent s Hreach) as Hs.
  destruct (held_under_name _ _ Hs p Hp) as [lb_args Hin].
  split; [by exists lb_args |].
  intros Hnone Hempty. rewrite Hempty in Hin.
  destruct (made_by_registry _ _ Hs _ _ _ Hin) as [past Hyes].
  rewrite Hnone in Hyes. discriminate.
Qed.

(** C3 (as the code has it).  While the engine is not shutting down, an
    update whose config is null returns the invalid-argument error
    "imbalancer: missing config" and changes nothing. *)
Theorem UpdateLocked_missing_config s a :
  shutting_down_ (this s) = false →
  config a = None →
  ∃ r, UpdateLocked env a s = Some (r, s) ∧
       r = InvalidArgumentError "imbalancer: missing config" ∧
       code r = kInvalidArgument ∧ ok r = false.
Proof.
  intros Hsd Hc. eexists. split; [by apply UpdateLocked_null |]. done.
Qed.

(** C4.  Shutdown is terminal: [ShutdownLocked] leaves the flag set and no
    child held, and whatever calls follow, each returns at once (an update
    with success), and the engine, the trace and the number of children
    made are what they were right after the shutdown: no child is made,
    nothing is forwarded, the flag stays set. *)
Theorem shutdown_is_terminal s cs :
  ∃ s1,
    ShutdownLocked s = Some (tt, s1) ∧
    shutting_down_ (this s1) = true ∧
    child_policy_ (this s1) = None ∧
    trace s1 = trace s ++ (ChildOrphan <$> held (child_policy_ (this s))) ∧
    calls env cs s1 = Some (swallowed <$> cs, s1).
Proof.
  eexists. split; [apply ShutdownLocked_eq |]. simpl.
  repeat split. by apply calls_after_shutdown.
Qed.

(** C5.  When a child has to be made and the registry returns none, the
    update returns the error "imbalancer: failed to create child policy",
    the engine holds no child and no child is alive. *)
Theorem UpdateLocked_creation_fails s a n cc :
  reachable env s →
  shutting_down_ (this s) = false →
  config a = Some (ImbalancerConfig n cc) →
  wants_new_child s n →
  registry_creates env (trace s) n
    (mkArgs (work_serializer_ (this s)) (args a) Helper) = false →
  ∃ s',
    UpdateLocked env a s
    = Some (InvalidArgumentError "imbalancer: failed to create child policy",
            s') ∧
    child_policy_ (this s') = None ∧
    live (trace s') = [].
Proof.
  intros Hreach Hsd Hc Hw Hreg.
  pose proof (reachable_consistent s Hreach) as Hs.
  eexists. split; [by apply (UpdateLocked_not_created s a n cc) |].
  split; [done |].
  pose proof (consistent_not_created s n
                (mkArgs (work_serializer_ (this s)) (args a) Helper) Hs) as Hs'.
  apply (held_is_live _ _ Hs').
Qed.

(** C6.  On the path where a child is there, exactly one thing is
    forwarded: the update, with the addresses, the resolution note and the
    channel arguments as they came and the config replaced by the child
    configuration stored in the engine's config; what the child returns is
    what the caller gets.  The child that gets it is the one the engine
    holds afterwards, and it is pinned: where a child was held under the
    name the config gives, it is that same child, nothing is asked of the
    registry and the engine is as it was; where a child had to be made, it
    is the child the registry has just made, the one held before (if any)
    has been orphaned, and the update follows these two events.  From a
    reachable state, that child is then the only one alive. *)
Theorem UpdateLocked_forwards s a n cc :
  shutting_down_ (this s) = false →
  config a = Some (ImbalancerConfig n cc) →
  (∃ p, child_policy_ (this s) = Some p ∧ child_policy_name_ (this s) = n) ∨
  (wants_new_child s n ∧
   registry_creates env (trace s) n
     (mkArgs (work_serializer_ (this s)) (args a) Helper) = true) →
  let child_args :=
    mkUpdateArgs (addresses a) cc (resolution_note a) (args a) in
  let lb_args := mkArgs (work_serializer_ (this s)) (args a) Helper in
  ∃ p r s' before,
    UpdateLocked env a s = Some (r, s') ∧
    child_policy_ (this s') = Some p ∧
    trace s' = (trace s ++ before) ++ [ChildUpdate p child_args r] ∧
    Forall (λ e, is_forward e = false) before ∧
    r = child_UpdateLocked env (trace s ++ before) p child_args ∧
    ((child_policy_ (this s) = Some p ∧
      child_policy_name_ (this s) = n ∧
      before = [] ∧
      this s' = this s ∧
      instances s' = instances s) ∨
     (wants_new_child s n ∧
      p = instances s ∧
      instances s' = S (instances s) ∧
      before = RegistryCreate n lb_args (Some p)
               :: (ChildOrphan <$> held (child_policy_ (this s))) ∧
      this s' = mkImbalancerLb (work_serializer_ (this s)) false n (Some p))) ∧
    (reachable env s → live (trace s') = [p]).
Proof.
  intros Hsd Hc [(p & Hp & Hn) | [Hw Hreg]] child_args lb_args.
  - exists p, (child_UpdateLocked env (trace s) p child_args),
      (mkState (this s) (trace s ++ [ChildUpdate p child_args
         (child_UpdateLocked env (trace s) p child_args)]) (instances s)), [].
    split; [by apply (UpdateLocked_keep s a n cc p) |]. simpl.
    rewrite app_nil_r.
    do 4 (split; [done |]). split; [by left |].
    intros Hreach. apply reachable_consistent in Hreach.
    rewrite live_app. simpl. by rewrite (held_is_live _ _ Hreach), Hp.
  - pose proof (UpdateLocked_created s a n cc Hsd Hc Hw Hreg) as Hu.
    simpl in Hu.
    eexists (instances s), _, _,
      (RegistryCreate n lb_args (Some (instances s))
         :: (ChildOrphan <$> held (child_policy_ (this s)))).
    split; [exact Hu |]. simpl.
    split; [done |]. split; [done |]. split.
    { constructor; [done |].
      destruct (child_policy_ (this s)); simpl; by repeat constructor. }
    split; [done |]. split; [by right |].
    intros Hreach. apply reachable_consistent in Hreach.
    assert (Hquiet :
      Forall (λ e : Event, is_creation e = false ∧ ∀ q, e ≠ ChildOrphan q)
        [ChildUpdate (instances s) child_args
           (child_UpdateLocked env
              (trace s ++ RegistryCreate n lb_args (Some (instances s))
                       :: (ChildOrphan <$> held (child_policy_ (this s))))
              (instances s) child_args)]).
    { apply Forall_singleton. by split. }
    apply (held_is_live _ _ (consistent_created s a n Hreach Hreg _ Hquiet)).
Qed.

(** C9.  Two updates in a row whose configs give the same name, with a
    child held after the first: the second leaves the engine as it is,
    makes and orphans nothing, and forwards the update to the child that
    got the first one. *)
Theorem same_name_keeps_child s a1 a2 n c1 c2 r1 s1 p :
  reachable env s →
  config a1 = Some (ImbalancerConfig n c1) →
  config a2 = Some (ImbalancerConfig n c2) →
  UpdateLocked env a1 s = Some (r1, s1) →
  child_policy_ (this s1) = Some p →
  ∃ t1 r2,
    trace s1 = t1 ++ [ChildUpdate p (set_config c1 a1) r1] ∧
    UpdateLocked env a2 s1
    = Some (r2, mkState (this s1)
                        (trace s1 ++ [ChildUpdate p (set_config c2 a2) r2])
                        (instances s1)).
Proof.
  intros Hreach Hc1 Hc2 Hu1 Hp1.
  pose proof (reachable_consistent s Hreach) as Hs.
  assert (Hsd : shutting_down_ (this s) = false).
  { destruct (shutting_down_ (this s)) eqn:E; [| done].
    rewrite UpdateLocked_shutting_down in Hu1 by done.
    injection Hu1 as <- <-.
    pose proof (shut_holds_none _ _ Hs E). congruence. }
  assert (Hfirst : shutting_down_ (this s1) = false ∧
                   child_policy_name_ (this s1) = n ∧
                   ∃ t1, trace s1 = t1 ++ [ChildUpdate p (set_config c1 a1) r1]).
  { destruct (wants_new_child_dec s n) as [(p' & Hp & Hn) | Hw].
    - rewrite (UpdateLocked_keep s a1 n c1 p') in Hu1 by done.
      injection Hu1 as <- <-. simpl in *.
      assert (p' = p) as -> by congruence. eauto.
    - destruct (registry_creates env (trace s) n
                  (mkArgs (work_serializer_ (this s)) (args a1) Helper))
        eqn:Hreg.
      + rewrite (UpdateLocked_created s a1 n c1) in Hu1 by done.
        injection Hu1 as <- <-. simpl in *.
        injection Hp1 as <-. eauto.
      + rewrite (UpdateLocked_not_created s a1 n c1) in Hu1 by done.
        injection Hu1 as <- <-. discriminate Hp1. }
  destruct Hfirst as (Hsd1 & Hn1 & t1 & Ht1).
  exists t1, (child_UpdateLocked env (trace s1) p (set_config c2 a2)).
  split; [done |]. by apply (UpdateLocked_keep s1 a2 n c2 p).
Qed.

(** C10.  The shutting-down test comes before the config test: after
    [ShutdownLocked] and any calls, an update with a null config returns
    success and changes nothing; in any state at all such an update returns
    success if the engine is shutting down and the missing-config error if
    it is not. *)
Theorem missing_config_after_shutdown s0 cs a :
  config a = None →
  ∃ s1 s,
    ShutdownLocked s0 = Some (tt, s1) ∧
    calls env cs s1 = Some (swallowed <$> cs, s) ∧
    UpdateLocked env a s = Some (OkStatus, s) ∧
    ∀ s',
      UpdateLocked env a s'
      = Some (if shutting_down_ (this s') then OkStatus
              else InvalidArgumentError "imbalancer: missing config", s').
Proof.
  intros Hc. eexists _, _.
  split; [apply ShutdownLocked_eq |].
  split; [by apply calls_after_shutdown |].
  split; [by apply UpdateLocked_shutting_down |].
  intros s'. destruct (shutting_down_ (this s')) eqn:E.
  - by apply UpdateLocked_shutting_down.
  - by apply UpdateLocked_null.
Qed.

End Properties.

Section ParserProperties.

Variable registry : Json → StatusOr (option Config).

(** What the parser makes of the registry's answer for a name and a child
    configuration. *)
Lemma ParseLoadBalancingConfig_object o :
  ParseLoadBalancingConfig registry (JObject o)
  = let name := match o !! "childPolicy" with
                | Some (JString s) => s
                | _ => "round_robin"
                end in
    let cfg := match o !! "childPolicyConfig" with
               | Some (JObject c) => JObject c
               | _ => JObject ∅
               end in
    match registry (JArray [JObject {[ name := cfg ]}]) with
    | Failed status => Failed status
    | Value child => Value (Some (ImbalancerConfig name child))
    end.
Proof. reflexivity. Qed.

(** C7.  For the empty object, and for any input that is not an object,
    the registry is given the list [[{"round_robin": {}}]]; its failure is
    the parser's failure, and on success the parser returns the config with
    the name "round_robin" and the child configuration the registry made. *)
Theorem ParseLoadBalancingConfig_defaults json :
  json = JObject ∅ ∨ (∀ o, json ≠ JObject o) →
  ParseLoadBalancingConfig registry json
  = match registry (JArray [JObject {[ "round_robin" := JObject ∅ ]}]) with
    | Failed status => Failed status
    | Value child => Value (Some (ImbalancerConfig "round_robin" child))
    end.
Proof.
  intros [-> | Hno].
  - rewrite ParseLoadBalancingConfig_object. by rewrite !lookup_empty.
  - destruct json; try reflexivity. by destruct (Hno o).
Qed.

(** C8.  A "childPolicy" that is not a string is passed over: the name is
    "round_robin", and the parser does what it does without the field.  A
    "childPolicyConfig" that is not an object is passed over: the child
    configuration given to the registry is the empty object, and the parser
    does what it does without the field.  In both cases the parser fails
    only if the registry does. *)
Theorem wrong_typed_fields_are_ignored o :
  (∀ v, o !! "childPolicy" = Some v → (∀ s, v ≠ JString s) →
     (∃ cfg,
        ParseLoadBalancingConfig registry (JObject o)
        = match registry (JArray [JObject {[ "round_robin" := cfg ]}]) with
          | Failed status => Failed status
          | Value child => Value (Some (ImbalancerConfig "round_robin" child))
          end) ∧
     ParseLoadBalancingConfig registry (JObject o)
     = ParseLoadBalancingConfig registry (JObject (delete "childPolicy" o))) ∧
  (∀ v, o !! "childPolicyConfig" = Some v → (∀ c, v ≠ JObject c) →
     (∃ name,
        ParseLoadBalancingConfig registry (JObject o)
        = match registry (JArray [JObject {[ name := JObject ∅ ]}]) with
          | Failed status => Failed status
          | Value child => Value (Some (ImbalancerConfig name child))
          end) ∧
     ParseLoadBalancingConfig registry (JObject o)
     = ParseLoadBalancingConfig registry
         (JObject (delete "childPolicyConfig" o))).
Proof.
  split; intros v Hv Hno; rewrite !ParseLoadBalancingConfig_object.
  - rewrite lookup_delete_eq, lookup_delete_ne by done. rewrite Hv.
    destruct v; try (split; [eexists |]; reflexivity). by destruct (Hno s).
  - rewrite lookup_delete_eq, lookup_delete_ne by done. rewrite Hv.
    destruct v; try (split; [eexists |]; reflexivity). by destruct (Hno o0).
Qed.

End ParserProperties.

(** * Further behaviour of the engine *)

Section EngineBehaviour.

Context `{TransportTypes}.
Variable env : Environment.

Implicit Types (s : State) (a : UpdateArgs) (p : ChildPolicy).

(** X1.  [UpdateLocked] is undefined in one case only: the engine is not
    shutting down and the config is of another policy's class.  In
    particular the call through [child_policy_] on line 74 never finds the
    pointer null. *)
Theorem UpdateLocked_undefined_iff s a :
  UpdateLocked env a s = None ↔
  shutting_down_ (this s) = false ∧
  ∃ policy body, config a = Some (PolicyConfig policy body).
Proof.
  split.
  - intros Hu. destruct (shutting_down_ (this s)) eqn:Hsd.
    { by rewrite UpdateLocked_shutting_down in Hu. }
    split; [done |].
    destruct (config a) as [[n cc | policy body] |] eqn:Hc.
    + destruct (wants_new_child_dec s n) as [(p & Hp & Hn) | Hw].
      * by rewrite (UpdateLocked_keep env s a n cc p) in Hu.
      * destruct (registry_creates env (trace s) n
                    (mkArgs (work_serializer_ (this s)) (args a) Helper))
          eqn:Hreg.
        -- by rewrite (UpdateLocked_created env s a n cc) in Hu.
        -- by rewrite (UpdateLocked_not_created env s a n cc) in Hu.
    + by exists policy, body.
    + by rewrite UpdateLocked_null in Hu.
  - intros (Hsd & policy & body & Hc). by eapply UpdateLocked_other_kind.
Qed.

(** X2.  An update with an imbalancer config that reaches an engine not
    shutting down leaves the config's name stored, whether a child was
    kept, made, or could not be made; if no child is held afterwards the
    status is the engine's creation error; the flag and the work serializer
    are not touched. *)
Theorem UpdateLocked_stores_requested_name s a n cc :
  shutting_down_ (this s) = false →
  config a = Some (ImbalancerConfig n cc) →
  ∃ r s',
    UpdateLocked env a s = Some (r, s') ∧
    child_policy_name_ (this s') = n ∧
    shutting_down_ (this s') = false ∧
    work_serializer_ (this s') = work_serializer_ (this s) ∧
    (child_policy_ (this s') = None →
     r = InvalidArgumentError "imbalancer: failed to create child policy").
Proof.
  intros Hsd Hc.
  destruct (wants_new_child_dec s n) as [(p & Hp & Hn) | Hw].
  - eexists _, _. split; [by apply (UpdateLocked_keep env s a n cc p) |].
    simpl. rewrite Hp. by repeat split.
  - destruct (registry_creates env (trace s) n
                (mkArgs (work_serializer_ (this s)) (args a) Helper)) eqn:Hreg.
    + eexists _, _.
      split; [by apply (UpdateLocked_created env s a n cc) |].
      by repeat split.
    + eexists _, _.
      split; [by apply (UpdateLocked_not_created env s a n cc) |].
      by repeat split.
Qed.

(** X4.  [ShutdownLocked] leaves no child alive and keeps the stored
    name. *)
Theorem ShutdownLocked_releases_child s :
  reachable env s →
  ∃ s',
    ShutdownLocked s = Some (tt, s') ∧
    live (trace s') = [] ∧
    child_policy_ (this s') = None ∧
    child_policy_name_ (this s') = child_policy_name_ (this s) ∧
    instances s' = instances s.
Proof.
  intros Hreach. pose proof (reachable_consistent env s Hreach) as Hs.
  eexists. split; [apply ShutdownLocked_eq |]. simpl.
  split; [| done]. apply (held_is_live _ _ (consistent_shutdown env s Hs)).
Qed.

(** X5.  [ExitIdleLocked] and [ResetBackoffLocked] reach every child that
    is alive, of which there is at most one, and no other; they leave the
    engine and the set of live children as they are. *)
Theorem idle_and_backoff_reach_the_live_child s :
  reachable env s →
  ∃ s1 s2,
    ExitIdleLocked s = Some (tt, s1) ∧
    ResetBackoffLocked s = Some (tt, s2) ∧
    trace s1 = trace s ++ (ChildExitIdle <$> live (trace s)) ∧
    trace s2 = trace s ++ (ChildResetBackoff <$> live (trace s)) ∧
    this s1 = this s ∧ this s2 = this s ∧
    live (trace s1) = live (trace s) ∧ live (trace s2) = live (trace s).
Proof.
  intros Hreach. pose proof (reachable_consistent env s Hreach) as Hs.
  pose proof (held_is_live _ _ Hs) as Hlive.
  eexists _, _.
  split; [apply ExitIdleLocked_eq |].
  split; [apply ResetBackoffLocked_eq |]. simpl.
  rewrite Hlive. repeat split.
  - rewrite live_app, Hlive. by destruct (child_policy_ (this s)).
  - rewrite live_app, Hlive. by destruct (child_policy_ (this s)).
Qed.

(** X7.  A failed creation does not stand in the way of the next try: the
    name stays stored, but since no child is held an update that gives the
    same name asks the registry again, and if the registry now makes the
    child it gets the update. *)
Theorem retry_after_failed_creation s a1 a2 n c1 c2 :
  shutting_down_ (this s) = false →
  config a1 = Some (ImbalancerConfig n c1) →
  config a2 = Some (ImbalancerConfig n c2) →
  wants_new_child s n →
  registry_creates env (trace s) n
    (mkArgs (work_serializer_ (this s)) (args a1) Helper) = false →
  ∃ r1 s1,
    UpdateLocked env a1 s = Some (r1, s1) ∧
    child_policy_name_ (this s1) = n ∧
    child_policy_ (this s1) = None ∧
    let lb_args := mkArgs (work_serializer_ (this s)) (args a2) Helper in
    ∃ r2 s2 made,
      UpdateLocked env a2 s1 = Some (r2, s2) ∧
      child_policy_ (this s2) = made ∧
      made = (if registry_creates env (trace s1) n lb_args
              then Some (instances s) else None) ∧
      trace s2 = (trace s1 ++ [RegistryCreate n lb_args made])
                 ++ ((λ q, ChildUpdate q (set_config c2 a2) r2) <$> held made).
Proof.
  intros Hsd Hc1 Hc2 Hw Hreg.
  eexists _, _.
  split; [by apply (UpdateLocked_not_created env s a1 n c1) |]. simpl.
  split; [done |]. split; [done |].
  set (s1 := mkState _ _ _).
  assert (Hw1 : wants_new_child s1 n) by by left.
  destruct (registry_creates env (trace s1) n
              (mkArgs (work_serializer_ (this s)) (args a2) Helper)) eqn:Hreg2.
  - eexists _, _, _.
    split; [by apply (UpdateLocked_created env s1 a2 n c2) |].
    unfold s1 in Hreg2. simpl in *. rewrite Hreg2.
    split; [done |]. split; [done |]. by rewrite ?app_nil_r.
  - eexists _, _, _.
    split; [by apply (UpdateLocked_not_created env s1 a2 n c2) |].
    unfold s1 in Hreg2. simpl in *. rewrite Hreg2.
    split; [done |]. split; [done |]. by rewrite ?app_nil_r.
Qed.

(** ** Calls on children, along a trace *)

Lemma checked_app (alive : list ChildPolicy) (t es : list Event) :
  checked alive (t ++ es) ↔
  checked alive t ∧ checked (foldl live_step alive t) es.
Proof.
  revert alive. induction t as [| e t IH]; intros alive; simpl.
  - tauto.
  - rewrite IH. tauto.
Qed.

Lemma checked_at (alive : list ChildPolicy) (t1 t2 : list Event) e p :
  checked alive (t1 ++ e :: t2) → child_of e = Some p →
  p ∈ foldl live_step alive t1.
Proof.
  rewrite checked_app. simpl. intros (_ & He & _) Hp. by apply He.
Qed.

Lemma checked_held (f : ChildPolicy → Event) (held_now : option ChildPolicy) :
  (∀ p, child_of (f p) = Some p) →
  checked (held held_now) (f <$> held held_now).
Proof.
  intros Hf. destruct held_now as [p|]; simpl; [| done].
  split; [| done]. intros q. rewrite Hf. intros [= <-]. apply list_elem_of_here.
Qed.

Lemma checked_update p a r : checked [p] [ChildUpdate p a r].
Proof.
  simpl. split; [| done]. intros q [= <-]. apply list_elem_of_here.
Qed.

Lemma call_checked s c r s' :
  consistent env s → checked [] (trace s) →
  call env c s = Some (r, s') → checked [] (trace s').
Proof.
  intros Hs Hck.
  pose proof (held_is_live _ _ Hs) as Hlive. unfold live in Hlive.
  destruct c as [a | | |]; unfold call, bind, ret.
  - destruct (UpdateLocked env a s) as [[r' s'']|] eqn:Hu; [| done].
    intros [= <- <-]. revert Hu.
    destruct (shutting_down_ (this s)) eqn:Hsd.
    { rewrite UpdateLocked_shutting_down by done. by intros [= <- <-]. }
    destruct (config a) as [[n cc | policy body] |] eqn:Hc.
    + destruct (wants_new_child_dec s n) as [(p & Hp & Hn) | Hw].
      * rewrite (UpdateLocked_keep env s a n cc p) by done.
        intros [= <- <-]. simpl. apply checked_app. split; [done |].
        rewrite Hlive, Hp. apply checked_update.
      * destruct (registry_creates env (trace s) n
                    (mkArgs (work_serializer_ (this s)) (args a) Helper))
          eqn:Hreg.
        -- rewrite (UpdateLocked_created env s a n cc) by done.
           intros [= <- <-]. simpl.
           pose proof (consistent_created env s a n Hs Hreg [] (Forall_nil_2 _))
             as Hs'.
           apply held_is_live in Hs'. simpl in Hs'. rewrite app_nil_r in Hs'.
           apply checked_app. split.
           ++ apply checked_app. split; [done |]. rewrite Hlive. simpl.
              split; [done |].
              destruct (child_policy_ (this s)) as [old|]; simpl; [| done].
              split; [| done]. intros q [= <-]. set_solver.
           ++ unfold live in Hs'. simpl in Hs'. rewrite Hs'.
              apply checked_update.
        -- rewrite (UpdateLocked_not_created env s a n cc) by done.
           intros [= <- <-]. simpl.
           apply checked_app. split; [done |]. rewrite Hlive. simpl.
           split; [done |].
           destruct (child_policy_ (this s)) as [old|]; simpl; [| done].
           split; [| done]. intros q [= <-]. set_solver.
    + by rewrite (UpdateLocked_other_kind env s a policy body).
    + rewrite UpdateLocked_null by done. by intros [= <- <-].
  - rewrite ExitIdleLocked_eq. intros [= <- <-]. simpl.
    apply checked_app. split; [done |]. rewrite Hlive.
    by apply checked_held.
  - rewrite ResetBackoffLocked_eq. intros [= <- <-]. simpl.
    apply checked_app. split; [done |]. rewrite Hlive.
    by apply checked_held.
  - rewrite ShutdownLocked_eq. intros [= <- <-]. simpl.
    apply checked_app. split; [done |]. rewrite Hlive.
    by apply checked_held.
Qed.

Lemma reachable_checked s : reachable env s → checked [] (trace s).
Proof.
  induction 1 as [lb_args | s c r s' Hreach IH Hcall]; [done |].
  eapply call_checked; [| exact IH | exact Hcall].
  by apply reachable_consistent.
Qed.

(** X3.  The engine calls a child only while that child is alive: whatever
    the calls made on the engine, at every update, idle exit, backoff reset
    or orphaning of a child in the trace, the child has been made by the
    registry and has not been orphaned before.  So no child is used after
    its teardown and none is torn down twice. *)
Theorem calls_only_on_live_children s t1 e t2 p :
  reachable env s →
  trace s = t1 ++ e :: t2 →
  child_of e = Some p →
  p ∈ live t1.
Proof.
  intros Hreach Ht Hp. apply reachable_checked in Hreach.
  rewrite Ht in Hreach. by eapply checked_at.
Qed.

(** ** What a call adds to the trace *)

Lemma create_not_among (f : ChildPolicy → Event) held_now n lb_args made :
  (∀ p, is_creation (f p) = false) →
  RegistryCreate n lb_args made ∉ f <$> held held_now.
Proof.
  intros Hf Hin. destruct held_now as [p|]; simpl in Hin.
  - apply list_elem_of_singleton in Hin. specialize (Hf p).
    rewrite <- Hin in Hf. discriminate Hf.
  - by apply elem_of_nil in Hin.
Qed.

Lemma call_effect s c r s' :
  call env c s = Some (r, s') →
  work_serializer_ (this s') = work_serializer_ (this s) ∧
  shutting_down_ (this s') = shutting_down_ (this s) || is_shutdown c ∧
  ∀ n lb_args made,
    RegistryCreate n lb_args made ∈ trace s' →
    RegistryCreate n lb_args made ∈ trace s ∨
    ∃ a cc, c = CallUpdateLocked a ∧
            config a = Some (ImbalancerConfig n cc) ∧
            lb_args = mkArgs (work_serializer_ (this s)) (args a) Helper.
Proof.
  destruct c as [a | | |]; unfold call, bind, ret.
  - destruct (UpdateLocked env a s) as [[r' s'']|] eqn:Hu; [| done].
    intros [= <- <-]. revert Hu.
    destruct (shutting_down_ (this s)) eqn:Hsd.
    { rewrite UpdateLocked_shutting_down by done. intros [= <- <-].
      rewrite Hsd. auto. }
    destruct (config a) as [[n cc | policy body] |] eqn:Hc.
    + destruct (wants_new_child_dec s n) as [(p & Hp & Hn) | Hw].
      * rewrite (UpdateLocked_keep env s a n cc p) by done.
        intros [= <- <-]. simpl. rewrite Hsd. do 2 (split; [done |]).
        intros n' la made Hin. left.
        apply elem_of_app in Hin as [Hin | Hin]; [done |].
        by apply list_elem_of_singleton in Hin.
      * destruct (registry_creates env (trace s) n
                    (mkArgs (work_serializer_ (this s)) (args a) Helper))
          eqn:Hreg.
        -- rewrite (UpdateLocked_created env s a n cc) by done.
           intros [= <- <-]. simpl. do 2 (split; [done |]).
           intros n' la made Hin.
           apply elem_of_app in Hin as [Hin | Hin];
             [| by apply list_elem_of_singleton in Hin].
           apply elem_of_app in Hin as [Hin | Hin]; [by left |].
           apply elem_of_cons in Hin as [Hin | Hin];
             [| by apply create_not_among in Hin].
           injection Hin as -> -> ->. right. by exists a, cc.
        -- rewrite (UpdateLocked_not_created env s a n cc) by done.
           intros [= <- <-]. simpl. do 2 (split; [done |]).
           intros n' la made Hin.
           apply elem_of_app in Hin as [Hin | Hin]; [by left |].
           apply elem_of_cons in Hin as [Hin | Hin];
             [| by apply create_not_among in Hin].
           injection Hin as -> -> ->. right. by exists a, cc.
    + by rewrite (UpdateLocked_other_kind env s a policy body).
    + rewrite UpdateLocked_null by done. intros [= <- <-].
      rewrite Hsd. auto.
  - rewrite ExitIdleLocked_eq. intros [= <- <-]. simpl.
    rewrite orb_false_r. do 2 (split; [done |]).
    intros n la made Hin. left.
    apply elem_of_app in Hin as [Hin | Hin]; [done |].
    by apply create_not_among in Hin.
  - rewrite ResetBackoffLocked_eq. intros [= <- <-]. simpl.
    rewrite orb_false_r. do 2 (split; [done |]).
    intros n la made Hin. left.
    apply elem_of_app in Hin as [Hin | Hin]; [done |].
    by apply create_not_among in Hin.
  - rewrite ShutdownLocked_eq. intros [= <- <-]. simpl.
    rewrite orb_true_r. do 2 (split; [done |]).
    intros n la made Hin. left.
    apply elem_of_app in Hin as [Hin | Hin]; [done |].
    by apply create_not_among in Hin.
Qed.

Lemma calls_effect cs : ∀ s0 rs s,
  calls env cs s0 = Some (rs, s) →
  work_serializer_ (this s) = work_serializer_ (this s0) ∧
  shutting_down_ (this s) = shutting_down_ (this s0) || existsb is_shutdown cs ∧
  ∀ n lb_args made,
    RegistryCreate n lb_args made ∈ trace s →
    RegistryCreate n lb_args made ∈ trace s0 ∨
    ∃ a cc, CallUpdateLocked a ∈ cs ∧
            config a = Some (ImbalancerConfig n cc) ∧
            lb_args = mkArgs (work_serializer_ (this s0)) (args a) Helper.
Proof.
  induction cs as [| c cs IH]; intros s0 rs s; simpl.
  - intros [= <- <-]. rewrite orb_false_r. auto.
  - unfold bind, ret.
    destruct (call env c s0) as [[r s1]|] eqn:Hc; [| done].
    destruct (calls env cs s1) as [[rs' s2]|] eqn:Hcs; [| done].
    intros [= <- <-].
    destruct (call_effect _ _ _ _ Hc) as (Hws1 & Hsd1 & Hin1).
    destruct (IH _ _ _ Hcs) as (Hws & Hsd & Hin).
    split; [congruence |].
    split; [by rewrite Hsd, Hsd1, orb_assoc |].
    intros n la made Hmade.
    destruct (Hin _ _ _ Hmade) as [Hold | (a & cc & Ha & Hcfg & Hla)].
    + destruct (Hin1 _ _ _ Hold) as [? | (a & cc & -> & Hcfg & Hla)];
        [by left |].
      right. exists a, cc. split; [apply list_elem_of_here | done].
    + right. exists a, cc. rewrite <- Hws1.
      split; [by apply list_elem_of_further | done].
Qed.

(** X6.  The registry is asked for a child only on behalf of an update: in
    a trace that starts with a new engine, every request to the registry
    names the child policy that the config of one of the updates names, and
    carries that update's channel arguments, the work serializer the engine
    was constructed with, and a helper of this engine. *)
Theorem children_made_for_updates lb_args cs rs s n child_lb_args made :
  calls env cs (initial lb_args) = Some (rs, s) →
  RegistryCreate n child_lb_args made ∈ trace s →
  ∃ a cc,
    CallUpdateLocked a ∈ cs ∧
    config a = Some (ImbalancerConfig n cc) ∧
    child_lb_args = mkArgs (work_serializer lb_args) (args a) Helper.
Proof.
  intros Hcalls Hin.
  destruct (calls_effect _ _ _ _ Hcalls) as (_ & _ & Hmade).
  destruct (Hmade _ _ _ Hin) as [Hnil | Hupdate]; [| done].
  by apply elem_of_nil in Hnil.
Qed.

(** X8.  Only [ShutdownLocked] sets the shutting-down flag: after any calls
    the flag is set if it was set before or one of the calls was a
    shutdown, and not otherwise. *)
Theorem flag_set_only_by_shutdown s0 cs rs s :
  calls env cs s0 = Some (rs, s) →
  shutting_down_ (this s) = shutting_down_ (this s0) || existsb is_shutdown cs.
Proof.
  intros Hcalls. by destruct (calls_effect _ _ _ _ Hcalls) as (_ & Hsd & _).
Qed.

(** X13.  A newly constructed policy holds no child: taking it out of idle
    or resetting its backoff does nothing, and its first update with an
    imbalancer config always asks the registry, under the config's name,
    with the work serializer the policy was constructed with and the
    update's channel arguments.  If the registry makes the child, the child
    gets the update and its status is returned; if not, nothing else
    happens and the creation error is returned. *)
Theorem new_policy_first_update lb_args a n cc :
  config a = Some (ImbalancerConfig n cc) →
  let child_lb_args := mkArgs (work_serializer lb_args) (args a) Helper in
  ExitIdleLocked (initial lb_args) = Some (tt, initial lb_args) ∧
  ResetBackoffLocked (initial lb_args) = Some (tt, initial lb_args) ∧
  ∃ r s',
    UpdateLocked env a (initial lb_args) = Some (r, s') ∧
    if registry_creates env [] n child_lb_args then
      trace s' = [RegistryCreate n child_lb_args (Some 0);
                  ChildUpdate 0 (set_config cc a) r] ∧
      child_policy_ (this s') = Some 0 ∧
      r = child_UpdateLocked env [RegistryCreate n child_lb_args (Some 0)] 0
            (set_config cc a)
    else
      trace s' = [RegistryCreate n child_lb_args None] ∧
      child_policy_ (this s') = None ∧
      r = InvalidArgumentError "imbalancer: failed to create child policy".
Proof.
  intros Hc child_lb_args. split; [done |]. split; [done |].
  assert (Hw : wants_new_child (initial lb_args) n) by by left.
  destruct (registry_creates env [] n child_lb_args) eqn:Hreg.
  - eexists _, _.
    split; [by apply (UpdateLocked_created env (initial lb_args) a n cc) |].
    done.
  - eexists _, _.
    split; [by apply (UpdateLocked_not_created env (initial lb_args) a n cc) |].
    done.
Qed.

End EngineBehaviour.

(** * Further behaviour of the parser *)

Section ParserBehaviour.

Variable registry : Json → StatusOr (option Config).

(** X9.  Of an object the parser reads the two fields "childPolicy" and
    "childPolicyConfig" and nothing else: two objects that agree on these
    two fields are parsed alike, whatever else they hold. *)
Theorem ParseLoadBalancingConfig_reads_two_fields (o1 o2 : gmap string Json) :
  o1 !! "childPolicy" = o2 !! "childPolicy" →
  o1 !! "childPolicyConfig" = o2 !! "childPolicyConfig" →
  ParseLoadBalancingConfig registry (JObject o1)
  = ParseLoadBalancingConfig registry (JObject o2).
Proof.
  intros Hp Hc. rewrite !ParseLoadBalancingConfig_object. by rewrite Hp, Hc.
Qed.

(** X10.  A "childPolicy" that is a string is the name the registry is
    asked about and the name in the config, even when it is the empty
    string; a "childPolicyConfig" that is an object is handed to the
    registry as it is. *)
Theorem ParseLoadBalancingConfig_uses_typed_fields
    (o c : gmap string Json) (n : string) :
  o !! "childPolicy" = Some (JString n) →
  o !! "childPolicyConfig" = Some (JObject c) →
  ParseLoadBalancingConfig registry (JObject o)
  = match registry (JArray [JObject {[ n := JObject c ]}]) with
    | Failed status => Failed status
    | Value child => Value (Some (ImbalancerConfig n child))
    end.
Proof.
  intros Hp Hc. rewrite ParseLoadBalancingConfig_object. by rewrite Hp, Hc.
Qed.

Lemma ParseLoadBalancingConfig_submits json :
  ∃ (name : string) (c : gmap string Json),
    ParseLoadBalancingConfig registry json
    = match registry (JArray [JObject {[ name := JObject c ]}]) with
      | Failed status => Failed status
      | Value child => Value (Some (ImbalancerConfig name child))
      end.
Proof.
  destruct json as [| b | text | str | o | l];
    try (by exists "round_robin", ∅).
  rewrite ParseLoadBalancingConfig_object.
  destruct (o !! "childPolicy") as [[| | | n | |] |];
    destruct (o !! "childPolicyConfig") as [[| | | | c |] |];
    by eexists _, _.
Qed.

(** X11.  Whatever the input, the parser asks the registry about a list of
    one object with one entry, whose value is an object.  The parser fails
    exactly when the registry does, with the registry's status; when it
    succeeds the result is never null and is an imbalancer config, with the
    entry's name and the child configuration the registry returned. *)
Theorem ParseLoadBalancingConfig_outcome json :
  ∃ (name : string) (c : gmap string Json),
    let submitted := JArray [JObject {[ name := JObject c ]}] in
    (∀ status,
       ParseLoadBalancingConfig registry json = Failed status ↔
       registry submitted = Failed status) ∧
    (∀ v,
       ParseLoadBalancingConfig registry json = Value v ↔
       ∃ child, registry submitted = Value child ∧
                v = Some (ImbalancerConfig name child)).
Proof.
  destruct (ParseLoadBalancingConfig_submits json) as (name & c & ->).
  exists name, c. simpl.
  destruct (registry (JArray [JObject {[ name := JObject c ]}]))
    as [child | status']; split.
  - intros status. split; discriminate.
  - intros v. split.
    + intros [= <-]. by exists child.
    + intros (child' & [= <-] & ->). done.
  - intros status. split; by intros [= <-].
  - intros v. split; [discriminate |]. by intros (child' & ? & _).
Qed.

End ParserBehaviour.

(** * From the parser to the child *)

Section EndToEnd.

Context `{TransportTypes}.
Variable registry : Json → StatusOr (option Config).
Variable env : Environment.

(** X12.  What the parser returns is a config the engine accepts: an update
    that carries it to an engine not shutting down has defined behaviour and
    does not fail for a missing config; the engine stores the name the
    parser chose, and a child held afterwards has got the update with, as
    its config, the child configuration that the registry's parser made. *)
Theorem parsed_config_reaches_child json v (a : UpdateArgs) (s : State) :
  ParseLoadBalancingConfig registry json = Value v →
  config a = v →
  shutting_down_ (this s) = false →
  ∃ name c child r s',
    registry (JArray [JObject {[ name := JObject c ]}]) = Value child ∧
    UpdateLocked env a s = Some (r, s') ∧
    child_policy_name_ (this s') = name ∧
    trace s' = trace s
               ++ (if decide (wants_new_child s name)
                   then RegistryCreate name
                          (mkArgs (work_serializer_ (this s)) (args a) Helper)
                          (child_policy_ (this s'))
                        :: (ChildOrphan <$> held (child_policy_ (this s)))
                   else [])
               ++ ((λ p, ChildUpdate p (set_config child a) r)
                     <$> held (child_policy_ (this s'))) ∧
    (child_policy_ (this s') = None →
     r = InvalidArgumentError "imbalancer: failed to create child policy").
Proof.
  intros Hparse Hcfg Hsd.
  destruct (ParseLoadBalancingConfig_submits registry json)
    as (name & c & Hsub).
  rewrite Hsub in Hparse.
  destruct (registry (JArray [JObject {[ name := JObject c ]}]))
    as [child | status] eqn:Hreg; [| discriminate].
  injection Hparse as <-.
  exists name, c, child.
  destruct (wants_new_child_dec s name) as [(p & Hp & Hn) | Hw].
  - eexists _, _. split; [done |].
    split; [by apply (UpdateLocked_keep env s a name child p) |]. simpl.
    split; [done |]. split; [| by rewrite Hp].
    rewrite decide_False; [by rewrite Hp |].
    intros [Hnone | Hne]; congruence.
  - destruct (registry_creates env (trace s) name
                (mkArgs (work_serializer_ (this s)) (args a) Helper)) eqn:Hmk.
    + eexists _, _. split; [done |].
      split; [by apply (UpdateLocked_created env s a name child) |]. simpl.
      split; [done |]. split; [| done].
      rewrite decide_True by done. simpl. by rewrite <- !app_assoc.
    + eexists _, _. split; [done |].
      split; [by apply (UpdateLocked_not_created env s a name child) |].
      simpl. split; [done |]. split; [| done].
      rewrite decide_True by done. simpl. by rewrite app_nil_r.
Qed.

End EndToEnd.

(** * The claims at concrete inputs *)

Lemma example_running_reachable : reachable example_registry example_running.
Proof.
  apply (reachable_call example_registry (initial example_lb_args)
           (CallUpdateLocked update_round_robin) (Some OkStatus));
    [apply reachable_initial | reflexivity].
Qed.

Lemma example_failed_reachable : reachable empty_registry example_failed.
Proof.
  apply (reachable_call empty_registry (initial example_lb_args)
           (CallUpdateLocked update_round_robin)
           (Some (InvalidArgumentError
                    "imbalancer: failed to create child policy")));
    [apply reachable_initial | reflexivity].
Qed.

Lemma example_shut_reachable : reachable example_registry example_shut.
Proof.
  apply (reachable_call example_registry (initial example_lb_args)
           CallShutdownLocked None);
    [apply reachable_initial | reflexivity].
Qed.

(** C1 as stated fails: round_robin, then pick_first.  The second update
    makes child 1 while child 0 is alive and orphans child 0 afterwards. *)
Lemma replacement_overlaps :
  ∃ s,
    calls example_registry
          [CallUpdateLocked update_round_robin;
           CallUpdateLocked update_pick_first]
          (initial example_lb_args)
    = Some ([Some OkStatus; Some OkStatus], s) ∧
    trace s !! 2 = Some (RegistryCreate "pick_first" example_lb_args (Some 1)) ∧
    trace s !! 3 = Some (ChildOrphan 0) ∧
    live (take 3 (trace s)) = [0; 1] ∧
    ¬ never_two_alive (trace s).
Proof.
  eexists. split; [reflexivity |]. simpl.
  split; [done |]. split; [done |]. split; [done |].
  intros Hnever. specialize (Hnever 3). vm_compute in Hnever. lia.
Qed.

(** C2 as stated fails: where the registry makes nothing, an update that
    names round_robin leaves the name stored and no child held. *)
Lemma failed_creation_keeps_name :
  ¬ (∀ s, reachable empty_registry s →
          child_policy_name_ (this s) ≠ "" ↔ is_Some (child_policy_ (this s))).
Proof.
  intros Hiff.
  destruct (Hiff example_failed example_failed_reachable) as [Hchild _].
  destruct Hchild as [p Hp]; [done | discriminate Hp].
Qed.

(** C3 as stated fails: after a shutdown an update with a null config
    returns success. *)
Lemma null_config_after_shutdown_returns_ok :
  ¬ (∀ s a, reachable example_registry s →
            (config a = None ∨
             ∃ policy body, config a = Some (PolicyConfig policy body)) →
            ∃ msg s',
              UpdateLocked example_registry a s
              = Some (InvalidArgumentError msg, s')).
Proof.
  intros Hall.
  destruct (Hall example_shut update_null example_shut_reachable)
    as (msg & s' & Hu); [by left |].
  discriminate Hu.
Qed.

Lemma replacement_creates_then_orphans_witness :
  reachable example_registry example_running ∧
  child_policy_ (this example_running) = Some 0 ∧
  child_policy_name_ (this example_running) ≠ "pick_first" ∧
  config update_pick_first = Some (ImbalancerConfig "pick_first" None) ∧
  ∃ r s' made rest,
    UpdateLocked example_registry update_pick_first example_running
    = Some (r, s') ∧
    trace s' = trace example_running
               ++ RegistryCreate "pick_first" example_lb_args made
               :: ChildOrphan 0 :: rest ∧
    child_policy_ (this s') = made ∧
    live (trace s') = held made.
Proof.
  split; [exact example_running_reachable |].
  split; [reflexivity |]. split; [discriminate |]. split; [reflexivity |].
  destruct (replacement_creates_then_orphans example_registry example_running
              example_running_reachable) as (_ & _ & Hrep).
  destruct (Hrep update_pick_first "pick_first" None 0 eq_refl
              ltac:(discriminate) eq_refl)
    as (r & s' & made & rest & Hu & Ht & _ & _ & _ & Hp & Hl).
  exists r, s', made, rest. repeat split; assumption.
Defined.

Lemma held_child_has_stored_name_witness :
  reachable example_registry example_running ∧
  child_policy_ (this example_running) = Some 0 ∧
  (∀ past lb_args, registry_creates example_registry past "" lb_args = false) ∧
  (∃ lb_args, RegistryCreate "round_robin" lb_args (Some 0) ∈ trace example_running) ∧
  child_policy_name_ (this example_running) ≠ "".
Proof.
  destruct (held_child_has_stored_name example_registry example_running 0
              example_running_reachable eq_refl) as [Hmade Hname].
  split; [exact example_running_reachable |].
  split; [reflexivity |]. split; [reflexivity |].
  split; [exact Hmade |]. apply Hname. reflexivity.
Defined.

Lemma UpdateLocked_missing_config_witness :
  shutting_down_ (this (initial example_lb_args)) = false ∧
  config update_null = None ∧
  UpdateLocked example_registry update_null (initial example_lb_args)
  = Some (InvalidArgumentError "imbalancer: missing config",
          initial example_lb_args).
Proof.
  split; [reflexivity |]. split; [reflexivity |].
  destruct (UpdateLocked_missing_config example_registry
              (initial example_lb_args) update_null eq_refl eq_refl)
    as (r & Hu & -> & _).
  exact Hu.
Defined.

Lemma UpdateLocked_creation_fails_witness :
  reachable example_registry example_running ∧
  wants_new_child example_running "does_not_exist" ∧
  ∃ s',
    UpdateLocked example_registry update_unknown example_running
    = Some (InvalidArgumentError "imbalancer: failed to create child policy",
            s') ∧
    child_policy_ (this s') = None ∧
    live (trace s') = [].
Proof.
  assert (Hw : wants_new_child example_running "does_not_exist")
    by (right; discriminate).
  split; [exact example_running_reachable |]. split; [exact Hw |].
  exact (UpdateLocked_creation_fails example_registry example_running
           update_unknown "does_not_exist" None
           example_running_reachable eq_refl eq_refl Hw eq_refl).
Defined.

Lemma UpdateLocked_forwards_witness :
  reachable example_registry example_running ∧
  child_policy_ (this example_running) = Some 0 ∧
  child_policy_name_ (this example_running) = "round_robin" ∧
  wants_new_child example_running "pick_first" ∧
  (∃ s',
     UpdateLocked example_registry update_round_robin_configured
       example_running
     = Some (OkStatus, s') ∧
     this s' = this example_running ∧
     instances s' = 1 ∧
     trace s' = trace example_running
                ++ [ChildUpdate 0 (example_update round_robin_config) OkStatus] ∧
     live (trace s') = [0]) ∧
  (∃ s',
     UpdateLocked example_registry update_pick_first_configured
       example_running
     = Some (OkStatus, s') ∧
     child_policy_ (this s') = Some 1 ∧
     child_policy_name_ (this s') = "pick_first" ∧
     trace s' = trace example_running
                ++ [RegistryCreate "pick_first" example_lb_args (Some 1);
                    ChildOrphan 0;
                    ChildUpdate 1 (example_update pick_first_config) OkStatus] ∧
     live (trace s') = [1]).
Proof.
  assert (Hw : wants_new_child example_running "pick_first")
    by (right; discriminate).
  split; [exact example_running_reachable |].
  split; [reflexivity |]. split; [reflexivity |]. split; [exact Hw |].
  split.
  - destruct (UpdateLocked_forwards example_registry example_running
                update_round_robin_configured "round_robin" round_robin_config
                eq_refl eq_refl
                (or_introl (ex_intro _ 0 (conj eq_refl eq_refl))))
      as (p & r & s' & before & Hu & Hp & Ht & _ & Hr & Hpin & Hlive).
    destruct Hpin as [(Hold & _ & -> & Hthis & Hinst) | (Hnew & _)].
    + injection Hold as <-. specialize (Hlive example_running_reachable).
      simpl in Hr. subst r. exists s'. by repeat split.
    + destruct Hnew as [Hnone | Hname]; [discriminate Hnone |].
      by destruct Hname.
  - destruct (UpdateLocked_forwards example_registry example_running
                update_pick_first_configured "pick_first" pick_first_config
                eq_refl eq_refl (or_intror (conj Hw eq_refl)))
      as (p & r & s' & before & Hu & Hp & Ht & _ & Hr & Hpin & Hlive).
    destruct Hpin as [(_ & Hname & _) | (_ & -> & _ & -> & Hthis)].
    + discriminate Hname.
    + specialize (Hlive example_running_reachable).
      simpl in Hr. subst r. exists s'. rewrite Hthis. by repeat split.
Defined.

Lemma same_name_keeps_child_witness :
  reachable example_registry (initial example_lb_args) ∧
  UpdateLocked example_registry update_round_robin (initial example_lb_args)
  = Some (OkStatus, example_running) ∧
  child_policy_ (this example_running) = Some 0 ∧
  ∃ t1 r2,
    trace example_running = t1 ++ [ChildUpdate 0 (example_update None) OkStatus] ∧
    UpdateLocked example_registry update_round_robin example_running
    = Some (r2, mkState (this example_running)
                        (trace example_running
                         ++ [ChildUpdate 0 (example_update None) r2])
                        (instances example_running)).
Proof.
  split; [apply reachable_initial |].
  split; [reflexivity |]. split; [reflexivity |].
  exact (same_name_keeps_child example_registry (initial example_lb_args)
           update_round_robin update_round_robin "round_robin" None None
           OkStatus example_running 0
           (reachable_initial _ _) eq_refl eq_refl eq_refl eq_refl).
Defined.

Lemma missing_config_after_shutdown_witness :
  config update_null = None ∧
  ∃ s1 s,
    ShutdownLocked example_running = Some (tt, s1) ∧
    calls example_registry [CallExitIdleLocked; CallUpdateLocked update_null] s1
    = Some ([None; Some OkStatus], s) ∧
    UpdateLocked example_registry update_null s = Some (OkStatus, s).
Proof.
  split; [reflexivity |].
  destruct (missing_config_after_shutdown example_registry example_running
              [CallExitIdleLocked; CallUpdateLocked update_null] update_null
              eq_refl) as (s1 & s & Hshut & Hcalls & Hu & _).
  exists s1, s. repeat split; assumption.
Defined.

Lemma ParseLoadBalancingConfig_defaults_witness :
  (JObject ∅ = JObject ∅ ∨ ∀ o, JObject ∅ ≠ JObject o) ∧
  ParseLoadBalancingConfig example_registry_parser (JObject ∅)
  = Value (Some (ImbalancerConfig "round_robin"
             (Some (PolicyConfig "child"
                (JArray [JObject {[ "round_robin" := JObject ∅ ]}]))))).
Proof.
  assert (Hempty : JObject ∅ = JObject ∅ ∨ ∀ o, JObject ∅ ≠ JObject o)
    by (left; reflexivity).
  split; [exact Hempty |].
  exact (ParseLoadBalancingConfig_defaults example_registry_parser
           (JObject ∅) Hempty).
Defined.

Lemma wrong_typed_fields_are_ignored_witness :
  example_json !! "childPolicy" = Some (JNumber "123") ∧
  example_json !! "childPolicyConfig" = Some (JString "x") ∧
  ParseLoadBalancingConfig example_registry_parser (JObject example_json)
  = Value (Some (ImbalancerConfig "round_robin"
             (Some (PolicyConfig "child"
                (JArray [JObject {[ "round_robin" := JObject ∅ ]}]))))) ∧
  ParseLoadBalancingConfig example_registry_parser (JObject example_json)
  = ParseLoadBalancingConfig example_registry_parser
      (JObject (delete "childPolicy" example_json)) ∧
  ParseLoadBalancingConfig example_registry_parser (JObject example_json)
  = ParseLoadBalancingConfig example_registry_parser
      (JObject (delete "childPolicyConfig" example_json)).
Proof.
  assert (Hp : example_json !! "childPolicy" = Some (JNumber "123"))
    by reflexivity.
  assert (Hc : example_json !! "childPolicyConfig" = Some (JString "x"))
    by reflexivity.
  destruct (wrong_typed_fields_are_ignored example_registry_parser
              example_json) as [Hname Hconfig].
  split; [exact Hp |]. split; [exact Hc |]. split; [reflexivity |]. split.
  - apply (Hname _ Hp). discriminate.
  - apply (Hconfig _ Hc). discriminate.
Defined.

(** * The further properties at concrete inputs *)

Lemma example_replaced_calls :
  calls example_registry
        [CallUpdateLocked update_round_robin; CallUpdateLocked update_pick_first]
        (initial example_lb_args)
  = Some ([Some OkStatus; Some OkStatus], example_replaced).
Proof. reflexivity. Qed.

Lemma example_replaced_reachable : reachable example_registry example_replaced.
Proof.
  eapply reachable_calls; [apply reachable_initial |].
  exact example_replaced_calls.
Qed.

Lemma UpdateLocked_undefined_iff_witness :
  shutting_down_ (this example_running) = false ∧
  config update_other_kind = Some (PolicyConfig "round_robin" JNull) ∧
  UpdateLocked example_registry update_other_kind example_running = None ∧
  UpdateLocked example_registry update_other_kind example_shut
  = Some (OkStatus, example_shut).
Proof.
  split; [reflexivity |]. split; [reflexivity |]. split; [| reflexivity].
  apply (UpdateLocked_undefined_iff example_registry example_running
           update_other_kind).
  split; [reflexivity |]. by exists "round_robin", JNull.
Defined.

Lemma UpdateLocked_stores_requested_name_witness :
  shutting_down_ (this example_running) = false ∧
  config update_unknown = Some (ImbalancerConfig "does_not_exist" None) ∧
  ∃ r s',
    UpdateLocked example_registry update_unknown example_running
    = Some (r, s') ∧
    child_policy_name_ (this s') = "does_not_exist" ∧
    shutting_down_ (this s') = false.
Proof.
  split; [reflexivity |]. split; [reflexivity |].
  destruct (UpdateLocked_stores_requested_name example_registry
              example_running update_unknown "does_not_exist" None
              eq_refl eq_refl) as (r & s' & Hu & Hn & Hsd & _).
  by exists r, s'.
Defined.

Lemma calls_only_on_live_children_witness :
  reachable example_registry example_replaced ∧
  trace example_replaced
  = [RegistryCreate "round_robin" example_lb_args (Some 0);
     ChildUpdate 0 (example_update None) OkStatus;
     RegistryCreate "pick_first" example_lb_args (Some 1)]
    ++ ChildOrphan 0 :: [ChildUpdate 1 (example_update None) OkStatus] ∧
  0 ∈ live [RegistryCreate "round_robin" example_lb_args (Some 0);
            ChildUpdate 0 (example_update None) OkStatus;
            RegistryCreate "pick_first" example_lb_args (Some 1)].
Proof.
  split; [exact example_replaced_reachable |]. split; [reflexivity |].
  exact (calls_only_on_live_children example_registry example_replaced
           [RegistryCreate "round_robin" example_lb_args (Some 0);
            ChildUpdate 0 (example_update None) OkStatus;
            RegistryCreate "pick_first" example_lb_args (Some 1)]
           (ChildOrphan 0)
           [ChildUpdate 1 (example_update None) OkStatus]
           0 example_replaced_reachable eq_refl eq_refl).
Defined.

Lemma ShutdownLocked_releases_child_witness :
  reachable example_registry example_running ∧
  ∃ s',
    ShutdownLocked example_running = Some (tt, s') ∧
    live (trace s') = [] ∧
    child_policy_ (this s') = None ∧
    child_policy_name_ (this s') = "round_robin".
Proof.
  split; [exact example_running_reachable |].
  destruct (ShutdownLocked_releases_child example_registry example_running
              example_running_reachable) as (s' & Hs & Hl & Hp & Hn & _).
  by exists s'.
Defined.

Lemma idle_and_backoff_reach_the_live_child_witness :
  reachable example_registry example_running ∧
  ∃ s1 s2,
    ExitIdleLocked example_running = Some (tt, s1) ∧
    ResetBackoffLocked example_running = Some (tt, s2) ∧
    trace s1 = trace example_running ++ [ChildExitIdle 0] ∧
    trace s2 = trace example_running ++ [ChildResetBackoff 0].
Proof.
  split; [exact example_running_reachable |].
  destruct (idle_and_backoff_reach_the_live_child example_registry
              example_running example_running_reachable)
    as (s1 & s2 & H1 & H2 & Ht1 & Ht2 & _).
  by exists s1, s2.
Defined.

Lemma children_made_for_updates_witness :
  calls example_registry
        [CallUpdateLocked update_round_robin; CallUpdateLocked update_pick_first]
        (initial example_lb_args)
  = Some ([Some OkStatus; Some OkStatus], example_replaced) ∧
  RegistryCreate "pick_first" example_lb_args (Some 1)
    ∈ trace example_replaced ∧
  ∃ a cc,
    CallUpdateLocked a
      ∈ [CallUpdateLocked update_round_robin;
         CallUpdateLocked update_pick_first] ∧
    config a = Some (ImbalancerConfig "pick_first" cc) ∧
    example_lb_args = mkArgs (work_serializer example_lb_args) (args a) Helper.
Proof.
  assert (Hin : RegistryCreate "pick_first" example_lb_args (Some 1)
                  ∈ trace example_replaced).
  { simpl. do 2 apply list_elem_of_further. apply list_elem_of_here. }
  split; [exact example_replaced_calls |]. split; [exact Hin |].
  exact (children_made_for_updates example_registry example_lb_args _ _ _ _ _ _
           example_replaced_calls Hin).
Defined.

Lemma retry_after_failed_creation_witness :
  wants_new_child (initial example_lb_args) "round_robin" ∧
  registry_creates late_registry (trace (initial example_lb_args))
    "round_robin" example_lb_args = false ∧
  ∃ r1 s1,
    UpdateLocked late_registry update_round_robin (initial example_lb_args)
    = Some (r1, s1) ∧
    child_policy_ (this s1) = None ∧
    ∃ r2 s2,
      UpdateLocked late_registry update_round_robin s1 = Some (r2, s2) ∧
      child_policy_ (this s2) = Some 0.
Proof.
  assert (Hw : wants_new_child (initial example_lb_args) "round_robin")
    by (left; reflexivity).
  split; [exact Hw |]. split; [reflexivity |].
  destruct (retry_after_failed_creation late_registry (initial example_lb_args)
              update_round_robin update_round_robin "round_robin" None None
              eq_refl eq_refl eq_refl Hw eq_refl)
    as (r1 & s1 & Hu1 & Hn1 & Hp1 & r2 & s2 & made & Hu2 & Hp2 & Hmade & _).
  exists r1, s1. split; [exact Hu1 |]. split; [exact Hp1 |].
  exists r2, s2. split; [exact Hu2 |].
  rewrite Hp2, Hmade.
  injection Hu1 as _ <-. reflexivity.
Defined.

Lemma flag_set_only_by_shutdown_witness :
  ∃ rs s,
    calls example_registry
          [CallUpdateLocked update_round_robin; CallShutdownLocked;
           CallExitIdleLocked]
          (initial example_lb_args)
    = Some (rs, s) ∧
    shutting_down_ (this s) = true.
Proof.
  eexists _, _. split; [reflexivity |].
  exact (flag_set_only_by_shutdown example_registry (initial example_lb_args)
           [CallUpdateLocked update_round_robin; CallShutdownLocked;
            CallExitIdleLocked] _ _ eq_refl).
Defined.

Lemma ParseLoadBalancingConfig_reads_two_fields_witness :
  typed_json !! "comment" = Some (JString "ignored") ∧
  delete "comment" typed_json !! "comment" = None ∧
  ParseLoadBalancingConfig example_registry_parser (JObject typed_json)
  = ParseLoadBalancingConfig example_registry_parser
      (JObject (delete "comment" typed_json)).
Proof.
  split; [reflexivity |]. split; [reflexivity |].
  apply (ParseLoadBalancingConfig_reads_two_fields example_registry_parser
           typed_json (delete "comment" typed_json));
    reflexivity.
Defined.

Lemma ParseLoadBalancingConfig_uses_typed_fields_witness :
  typed_json !! "childPolicy" = Some (JString "pick_first") ∧
  typed_json !! "childPolicyConfig"
  = Some (JObject {[ "shuffle" := JBoolean true ]}) ∧
  ParseLoadBalancingConfig example_registry_parser (JObject typed_json)
  = Value (Some (ImbalancerConfig "pick_first"
             (Some (PolicyConfig "child"
                (JArray [JObject {[ "pick_first" :=
                   JObject {[ "shuffle" := JBoolean true ]} ]}]))))).
Proof.
  split; [reflexivity |]. split; [reflexivity |].
  exact (ParseLoadBalancingConfig_uses_typed_fields example_registry_parser
           typed_json {[ "shuffle" := JBoolean true ]} "pick_first"
           eq_refl eq_refl).
Defined.

Lemma parsed_config_reaches_child_witness :
  ParseLoadBalancingConfig example_registry_parser (JObject ∅)
  = Value (Some (ImbalancerConfig "round_robin"
             (Some (PolicyConfig "child"
                (JArray [JObject {[ "round_robin" := JObject ∅ ]}]))))) ∧
  ∃ name c child r s',
    example_registry_parser (JArray [JObject {[ name := JObject c ]}])
    = Value child ∧
    UpdateLocked example_registry
      (example_update (Some (ImbalancerConfig "round_robin"
         (Some (PolicyConfig "child"
            (JArray [JObject {[ "round_robin" := JObject ∅ ]}]))))))
      (initial example_lb_args)
    = Some (r, s') ∧
    child_policy_name_ (this s') = name.
Proof.
  assert (Hparse :
    ParseLoadBalancingConfig example_registry_parser (JObject ∅)
    = Value (Some (ImbalancerConfig "round_robin"
               (Some (PolicyConfig "child"
                  (JArray [JObject {[ "round_robin" := JObject ∅ ]}]))))))
    by reflexivity.
  split; [exact Hparse |].
  destruct (parsed_config_reaches_child example_registry_parser
              example_registry (JObject ∅)
              (Some (ImbalancerConfig "round_robin"
                 (Some (PolicyConfig "child"
                    (JArray [JObject {[ "round_robin" := JObject ∅ ]}])))))
              (example_update (Some (ImbalancerConfig "round_robin"
                 (Some (PolicyConfig "child"
                    (JArray [JObject {[ "round_robin" := JObject ∅ ]}]))))))
              (initial example_lb_args) Hparse eq_refl eq_refl)
    as (name & c & child & r & s' & Hreg & Hu & Hn & _).
  by exists name, c, child, r, s'.
Defined.

Lemma new_policy_first_update_witness :
  config update_round_robin = Some (ImbalancerConfig "round_robin" None) ∧
  UpdateLocked example_registry update_round_robin (initial example_lb_args)
  = Some (OkStatus, example_running) ∧
  ∃ r s',
    UpdateLocked empty_registry update_round_robin (initial example_lb_args)
    = Some (r, s') ∧
    trace s' = [RegistryCreate "round_robin" example_lb_args None].
Proof.
  split; [reflexivity |]. split; [reflexivity |].
  destruct (new_policy_first_update empty_registry example_lb_args
              update_round_robin "round_robin" None eq_refl)
    as (_ & _ & r & s' & Hu & Ht & _).
  by exists r, s'.
Defined.
